(** * muser-backend: rooms, tokens and realtime messages

    A shallow embedding of [src/main.py] (a Flask / Flask-SocketIO /
    SQLAlchemy application) and the properties of its room-assignment
    and messaging handlers.

    Conventions of the embedding:
    - the SQLite database is a record [Store] of tables; tables keyed by
      a primary key are [gmap]s, the message table is a list in insertion
      (rowid) order;
    - a naive [datetime] is the integer number of microseconds it lies
      after the calendar origin, so that [<] on [datetime] is [<] on [Z]
      and a [timedelta] is added with [+];
    - every [datetime.datetime.now()] of a handler is a separate reading
      of the clock, passed in by the caller;
    - the two HTTP calls to the identity provider are the two functions
      of a [Provider];
    - an exception that no handler of the source catches ends the request
      with [Unhandled]; what the database session had not committed by
      then is discarded;
    - [SQLALCHEMY_COMMIT_ON_TEARDOWN] is set, so a request that returns
      normally commits the pending changes of its session. *)

From Stdlib Require Import QArith.
From stdpp Require Import gmap strings list fin_maps sorting.

Local Open Scope string_scope.
Local Open Scope Z_scope.
Local Open Scope list_scope.

(** ** Time *)

Definition datetime := Z.

Definition microseconds_per_second : Z := 1000000.
Definition microseconds_per_day : Z := 86400 * microseconds_per_second.

(** [datetime.timedelta(seconds=s)], [datetime.timedelta(days=1)] and
    [datetime.timedelta(weeks=1)]. *)
Definition timedelta_seconds (s : Z) : Z := s * microseconds_per_second.
Definition timedelta_days (d : Z) : Z := d * microseconds_per_day.

(** [datetime.datetime.combine(d, datetime.time.min)]: the first instant
    of the calendar day of [d]. *)
Definition combine_time_min (d : datetime) : datetime :=
  (d `div` microseconds_per_day) * microseconds_per_day.

(** [dt.timestamp()]: seconds since the epoch, here as the exact rational
    (Python rounds it to the nearest double), the reference clock being
    the one the naive datetimes are read from. *)
Definition timestamp (dt : datetime) : Q := Qmake dt 1000000.

(** ** Database models *)

(** An entry of the provider's ["images"] array. [Room.images] holds the
    [json.dumps] text of such an array and is read back with
    [json.loads]; the column is modelled by the decoded value. *)
Record Image := mkImage { url : string; height : Z; width : Z }.

Module Room.
Record t := mk {
  id : string;
  images : option (list Image);
  name : string;
  room_type : string
}.
End Room.

Module User.
Record t := mk {
  id : string;
  display_name : option string;
  email : option string;
  profile_picture : option string;
  spotify_link : option string;
  href : option string;
  refresh_token : string;
  access_token : string;
  access_token_expiry : datetime;
  artist_room_1 : option string;
  artist_room_2 : option string;
  genre_room_1 : option string;
  genre_room_2 : option string;
  rooms_expiry : option datetime
}.

(** The assignments [user.access_token = ...] and
    [user.access_token_expiry = ...] of the refresh branch. *)
Definition set_access (tok : string) (exp : datetime) (u : t) : t :=
  mk (id u) (display_name u) (email u) (profile_picture u) (spotify_link u)
     (href u) (refresh_token u) tok exp
     (artist_room_1 u) (artist_room_2 u) (genre_room_1 u) (genre_room_2 u)
     (rooms_expiry u).

(** The five assignments of the recomputation: the four rooms and
    [rooms_expiry]. *)
Definition set_rooms (a1 a2 g1 g2 : string) (exp : datetime) (u : t) : t :=
  mk (id u) (display_name u) (email u) (profile_picture u) (spotify_link u)
     (href u) (refresh_token u) (access_token u) (access_token_expiry u)
     (Some a1) (Some a2) (Some g1) (Some g2) (Some exp).

(** The tuple [(user.artist_room_1, user.artist_room_2,
    user.genre_room_1, user.genre_room_2)]. *)
Definition assigned (u : t) : list (option string) :=
  [artist_room_1 u; artist_room_2 u; genre_room_1 u; genre_room_2 u].
End User.

Module Message.
Record t := mk {
  id : Z;
  body : string;
  timestamp : datetime;
  user_id : string;
  room_id : string
}.
End Message.

Module Token.
Record t := mk {
  token : string;
  expiry : datetime;
  user_id : string
}.
End Token.

Record Store := mkStore {
  users : gmap string User.t;
  tokens : gmap string Token.t;
  rooms : gmap string Room.t;
  messages : list Message.t
}.

Definition with_user (u : User.t) (st : Store) : Store :=
  mkStore (<[User.id u := u]> (users st)) (tokens st) (rooms st) (messages st).

Definition with_rooms (rs : gmap string Room.t) (st : Store) : Store :=
  mkStore (users st) (tokens st) rs (messages st).

Definition with_message (m : Message.t) (st : Store) : Store :=
  mkStore (users st) (tokens st) (rooms st) (messages st ++ [m]).

(** ** Exceptions and the error monad *)

Inductive exn :=
| AttributeError   (* attribute of [None], or a session attribute never set *)
| IndexError       (* list index out of range *)
| KeyError         (* missing dictionary key *)
| IntegrityError.  (* primary-key or NOT NULL violation at flush *)

Inductive Result (A : Type) :=
| Ok (a : A)
| Raise (e : exn).
Arguments Ok {A} a.
Arguments Raise {A} e.

#[global] Instance Result_bind : MBind Result := λ A B k r,
  match r with
  | Ok a => k a
  | Raise e => Raise e
  end.

(** [o] is an object that may be [None]; reading an attribute of [None]
    raises. *)
Definition attr_of {A} (o : option A) : Result A :=
  match o with
  | Some a => Ok a
  | None => Raise AttributeError
  end.

(** [l[i]] on a Python list. *)
Definition index {A} (l : list A) (i : nat) : Result A :=
  match l !! i with
  | Some a => Ok a
  | None => Raise IndexError
  end.

(** ** Marshalling *)

Record UserJson := mkUserJson {
  uj_id : string;
  uj_display_name : option string;
  uj_profile_picture : option string;
  uj_spotify_link : option string
}.

Record MessageJson := mkMessageJson {
  mj_id : Z;
  mj_body : string;
  mj_timestamp : Q;
  mj_room_id : string;
  mj_user : UserJson
}.

(** [Message.marshal]: [self.user] is the row of [user] that
    [self.user_id] refers to, read when the message is marshalled. *)
Definition marshal (us : gmap string User.t) (m : Message.t) : Result MessageJson :=
  u ← attr_of (us !! Message.user_id m);
  Ok (mkMessageJson (Message.id m) (Message.body m)
        (timestamp (Message.timestamp m)) (Message.room_id m)
        (mkUserJson (User.id u) (User.display_name u)
           (User.profile_picture u) (User.spotify_link u))).

Fixpoint marshal_all (us : gmap string User.t) (ms : list Message.t)
  : Result (list MessageJson) :=
  match ms with
  | [] => Ok []
  | m :: ms' =>
      j ← marshal us m;
      js ← marshal_all us ms';
      Ok (j :: js)
  end.

(** [room.messages]: the rows of [message] whose [room_id] is the room's
    identifier, in insertion order. *)
Definition room_messages (st : Store) (rid : string) : list Message.t :=
  filter (λ m, Message.room_id m = rid) (messages st).

(** [[message.marshal() for message in room.messages]]. *)
Definition history (st : Store) (rid : string) : Result (list MessageJson) :=
  marshal_all (users st) (room_messages st rid).

(** ** The identity provider *)

(** An element of ["items"] in the top-artists answer. *)
Record Artist := mkArtist {
  artist_id : string;
  artist_name : string;
  artist_images : list Image;
  genres : list string
}.

(** The answer of [GET /v1/me/top/artists?limit=50]. *)
Record TopArtists := mkTopArtists {
  total : Z;
  items : list Artist
}.

(** The answer of the token endpoint to a [refresh_token] grant. *)
Record TokenData := mkTokenData {
  td_access_token : string;
  td_expires_in : Z
}.

Record Provider := mkProvider {
  (* POST https://accounts.spotify.com/api/token, by refresh token *)
  refresh_grant : string → TokenData;
  (* GET https://api.spotify.com/v1/me/top/artists?limit=50, by access token *)
  top_artists : string → TopArtists
}.

(** ** Genre ranking *)

(** [genres[genre] += 1] on a [defaultdict(int)]. A Python dict keeps its
    keys in insertion order, which [genres.items()] then exposes, so the
    dict is an association list: an existing key is updated in place, a
    new key starts from 0 and is appended. *)
Fixpoint incr (g : string) (d : list (string * Z)) : list (string * Z) :=
  match d with
  | [] => [(g, 0 + 1)]
  | (k, c) :: d' =>
      if decide (k = g) then (k, c + 1) :: d' else (k, c) :: incr g d'
  end.

(** The two nested [for] loops over the artists and their genres. *)
Definition count_genres (arts : list Artist) : list (string * Z) :=
  foldl (λ d a, foldl (λ d g, incr g d) d (genres a)) [] arts.

(** [sorted(..., key=lambda item: item[1], reverse=True)]. Python's sort
    is stable, also with [reverse=True]: the result is the one ordering
    of the items that is descending in the key and keeps items of equal
    key in their original order. That list is computed here by insertion:
    an item goes behind the items of strictly greater key and in front of
    the later items of equal or smaller key. *)
Fixpoint insert_desc (x : string * Z) (s : list (string * Z)) : list (string * Z) :=
  match s with
  | [] => [x]
  | y :: s' => if bool_decide (x.2 < y.2) then y :: insert_desc x s' else x :: s
  end.

Definition sorted_desc (d : list (string * Z)) : list (string * Z) :=
  foldr insert_desc [] d.

(** ** GET /api/v1/rooms *)

(** One dict of the list [rooms]; ["images"] and ["messages"] are absent
    from some of them. *)
Record RoomEntry := mkRoomEntry {
  re_type : string;
  re_name : string;
  re_id : string;
  re_images : option (list Image);
  re_messages : list MessageJson
}.

Inductive RoomsReply :=
| Abort (status : Z)                                  (* [abort(403)] *)
| Plain (text : string) (status : Z)                  (* [("Not enough data", 204)] *)
| Json (rooms : list RoomEntry) (expiry : Q)          (* [jsonify(...)], status 200 *)
| Unhandled (e : exn).

(** The successive readings of the clock in one run of [get_rooms]. *)
Record Clock := mkClock {
  now_token : datetime;     (* [token.expiry < now()] *)
  now_rooms : datetime;     (* [user.rooms_expiry < now()] *)
  now_access : datetime;    (* [user.access_token_expiry < now()] *)
  now_refresh : datetime;   (* [timedelta(seconds=expires_in) + now()] *)
  today : datetime          (* [datetime.datetime.today()] *)
}.

(** [(not user.rooms_expiry) or user.rooms_expiry < now()]; a datetime is
    never falsy, so [not] tests for [None]. *)
Definition rooms_stale (u : User.t) (now : datetime) : bool :=
  match User.rooms_expiry u with
  | None => true
  | Some e => bool_decide (e < now)
  end.

(** The refresh of the provider credential at the head of the cache-miss
    branch. *)
Definition refresh_access (prov : Provider) (clk : Clock) (u : User.t) : User.t :=
  if bool_decide (User.access_token_expiry u < now_access clk) then
    let token_data := refresh_grant prov (User.refresh_token u) in
    User.set_access (td_access_token token_data)
      (timedelta_seconds (td_expires_in token_data) + now_refresh clk) u
  else u.

(** The body of [for room in rooms:] on the cache-miss branch, for one
    room: create the row if no row has the identifier, then read the row
    back and marshal its messages. Queries flush the pending rows first,
    so a row added for an earlier room is seen. *)
Definition ensure_room (st : Store) (room : RoomEntry) : Result (Store * RoomEntry) :=
  st1 ←
    match rooms st !! re_id room with
    | Some _ => Ok st
    | None =>
        if decide (re_type room = "artist") then
          imgs ← match re_images room with
                 | Some i => Ok i
                 | None => Raise KeyError
                 end;
          Ok (with_rooms
                (<[re_id room := Room.mk (re_id room) (Some imgs) (re_name room) "artist"]>
                   (rooms st)) st)
        else
          match rooms st !! re_name room with
          | Some _ => Raise IntegrityError
          | None =>
              Ok (with_rooms
                    (<[re_name room := Room.mk (re_name room) None (re_name room) "artist"]>
                       (rooms st)) st)
          end
    end;
  room_class ← attr_of (rooms st1 !! re_id room);
  msgs ← history st1 (Room.id room_class);
  Ok (st1, mkRoomEntry (re_type room) (re_name room) (re_id room) (re_images room) msgs).

Fixpoint ensure_rooms (st : Store) (rs : list RoomEntry) : Result (Store * list RoomEntry) :=
  match rs with
  | [] => Ok (st, [])
  | room :: rs' =>
      '(st1, room1) ← ensure_room st room;
      '(st2, rs1) ← ensure_rooms st1 rs';
      Ok (st2, room1 :: rs1)
  end.

(** The cache-miss branch after the provider answered with at least two
    artists: everything from the first [rooms.append] to
    [db.session.commit()]. [u] is the user object, already carrying a
    refreshed credential if one was fetched. *)
Definition recompute (st : Store) (u : User.t) (clk : Clock)
    (top_artists_data : TopArtists) : Result (Store * list RoomEntry * datetime) :=
  a0 ← index (items top_artists_data) 0;
  a1 ← index (items top_artists_data) 1;
  let r0 := mkRoomEntry "artist" (artist_name a0) (artist_id a0) (Some (artist_images a0)) [] in
  let r1 := mkRoomEntry "artist" (artist_name a1) (artist_id a1) (Some (artist_images a1)) [] in
  let genres_sorted := sorted_desc (count_genres (items top_artists_data)) in
  g0 ← index genres_sorted 0;
  g1 ← index genres_sorted 1;
  let r2 := mkRoomEntry "genre" g0.1 g0.1 None [] in
  let r3 := mkRoomEntry "genre" g1.1 g1.1 None [] in
  let rooms_expiry := combine_time_min (today clk) + timedelta_days 1 in
  let user := User.set_rooms (artist_id a0) (artist_id a1) g0.1 g1.1 rooms_expiry u in
  '(st1, rooms1) ← ensure_rooms (with_user user st) [r0; r1; r2; r3];
  Ok (st1, rooms1, rooms_expiry).

(** The body of [for room_id in [...]:] on the cache-hit branch, for one
    identifier. [json.loads(room.images)] fails on a row without images
    and the [except] then leaves the key out. *)
Definition stored_room (st : Store) (room_id : option string) : Result RoomEntry :=
  room ← attr_of (room_id ≫= λ i, rooms st !! i);
  msgs ← history st (Room.id room);
  Ok (mkRoomEntry (Room.room_type room) (Room.name room) (Room.id room)
        (Room.images room) msgs).

Fixpoint stored_rooms (st : Store) (ids : list (option string)) : Result (list RoomEntry) :=
  match ids with
  | [] => Ok []
  | i :: ids' =>
      r ← stored_room st i;
      rs ← stored_rooms st ids';
      Ok (r :: rs)
  end.

(** [get_rooms] from [rooms = []] on, for the user object [user] that the
    token resolved to ([None] when the token's user row is missing). The
    early return with 204 happens after the credential refresh, whose
    assignments the teardown commit then stores. *)
Definition rooms_of_user (st : Store) (user : option User.t) (clk : Clock)
    (prov : Provider) : RoomsReply * Store :=
  match user with
  | None => (Unhandled AttributeError, st)
  | Some u =>
      if rooms_stale u (now_rooms clk) then
        let u1 := refresh_access prov clk u in
        let top_artists_data := top_artists prov (User.access_token u1) in
        if bool_decide (total top_artists_data < 2) then
          (Plain "Not enough data" 204, with_user u1 st)
        else
          match recompute st u1 clk top_artists_data with
          | Ok (st1, rooms1, expiry) => (Json rooms1 (timestamp expiry), st1)
          | Raise e => (Unhandled e, st)
          end
      else
        match stored_rooms st (User.assigned u), User.rooms_expiry u with
        | Ok rooms1, Some expiry => (Json rooms1 (timestamp expiry), st)
        | Ok _, None => (Unhandled AttributeError, st)
        | Raise e, _ => (Unhandled e, st)
        end
  end.

(** [get_rooms], [authorization] being
    [request.headers.get("Authorization")]. *)
Definition get_rooms (st : Store) (authorization : option string) (clk : Clock)
    (prov : Provider) : RoomsReply * Store :=
  match authorization ≫= λ t, tokens st !! t with
  | None => (Abort 403, st)
  | Some token =>
      if bool_decide (Token.expiry token < now_token clk) then (Abort 403, st)
      else rooms_of_user st (users st !! Token.user_id token) clk prov
  end.

(** ** The realtime events *)

(** The per-connection [session] object; [token] is the attribute that
    [join] sets, absent until then. *)
Record Session := mkSession { token : option string }.

Inductive JoinReply :=
| Refused (reason : string)                 (* [raise ConnectionRefusedError(...)] *)
| Subscribed (channels : list (option string))   (* the four [join_room] calls *)
| JoinUnhandled (e : exn).

(** [join] after the two checks of the token, for the user object the
    token resolved to. *)
Definition join_as (user : option User.t) (sess : Session) (token_id : string)
  : JoinReply * Session :=
  match user with
  | None => (JoinUnhandled AttributeError, sess)
  | Some u => (Subscribed (User.assigned u), mkSession (Some token_id))
  end.

Definition join (st : Store) (sess : Session) (token_id : string) (now : datetime)
  : JoinReply * Session :=
  match tokens st !! token_id with
  | None => (Refused "authentication failed", sess)
  | Some tok =>
      if bool_decide (Token.expiry tok < now) then
        (Refused "authentication failed", sess)
      else join_as (users st !! Token.user_id tok) sess token_id
  end.

(** What a ["new message"] handler hands back to the client. *)
Inductive Ack :=
| Acked (text : string) (status : Z)
| AckUnhandled (e : exn).

(** [emit("new message", payload, room=room)]. *)
Record Emit := mkEmit { event : string; payload : MessageJson; to_room : string }.

(** The integer primary key SQLite gives a new row: one more than the
    largest key in the table. *)
Definition next_id (ms : list Message.t) : Z :=
  1 + foldr (λ m acc, Z.max (Message.id m) acc) 0 ms.

(** [room not in (user.artist_room_1, ..., user.genre_room_2)]. *)
Definition not_assigned (room : string) (u : User.t) : bool :=
  bool_decide (Some room ∉ User.assigned u).

(** [message_created] from the membership test on, for the user [u] of
    the session's token. [now] is the clock reading of the column
    default [datetime.datetime.now] when the row is inserted. *)
Definition post_as (st : Store) (u : User.t) (room body : string) (now : datetime)
  : Ack * Store * list Emit :=
  if not_assigned room u then
    (Acked "User does not have access to room" 403, st, [])
  else
    match rooms st !! room with
    | None => (AckUnhandled IntegrityError, st, [])
    | Some room_row =>
        let message :=
          Message.mk (next_id (messages st)) body now (User.id u) (Room.id room_row) in
        let st1 := with_message message st in
        match marshal (users st1) message with
        | Ok j => (Acked "Message sent" 201, st1, [mkEmit "new message" j room])
        | Raise e => (AckUnhandled e, st1, [])
        end
    end.

Definition message_created (st : Store) (sess : Session) (room body : string)
    (now : datetime) : Ack * Store * list Emit :=
  match token sess with
  | None => (AckUnhandled AttributeError, st, [])
  | Some token_id =>
      match tokens st !! token_id with
      | None => (AckUnhandled AttributeError, st, [])
      | Some tok =>
          match users st !! Token.user_id tok with
          | None => (AckUnhandled AttributeError, st, [])
          | Some u => post_as st u room body now
          end
      end
  end.

(** ** POST /api/v1/spotify-callback and GET /api/v1/users/<id> *)

(** [datetime.timedelta(weeks=1)]. *)
Definition timedelta_weeks (w : Z) : Z := w * 7 * microseconds_per_day.

(** The answer of the token endpoint to an [authorization_code] grant. *)
Record GrantData := mkGrantData {
  gd_access_token : string;
  gd_refresh_token : string;
  gd_expires_in : Z
}.

(** The answer of [GET /v1/me]; [pf_spotify] is
    [user_data["external_urls"]["spotify"]]. *)
Record Profile := mkProfile {
  pf_id : string;
  pf_display_name : option string;
  pf_email : option string;
  pf_images : list Image;
  pf_spotify : string;
  pf_href : string
}.

(** The two HTTP calls of the sign-in. The token endpoint answers a code
    it does not accept with an error document, which has no
    ["access_token"]: that answer is [None]. A grant and the profile
    answer are taken to carry all the keys the handler reads. *)
Record Accounts := mkAccounts {
  (* POST https://accounts.spotify.com/api/token, by authorization code *)
  code_grant : string → option GrantData;
  (* GET https://api.spotify.com/v1/me, by access token *)
  me : string → Profile
}.

(** The JSON body of the 201 answer. *)
Record LoginJson := mkLoginJson {
  lj_id : string;
  lj_display_name : option string;
  lj_email : option string;
  lj_spotify_link : string;
  lj_profile_picture : option string
}.

Inductive CallbackReply :=
| CallbackAbort (status : Z)          (* [abort(400)] *)
| Created (body : LoginJson)          (* [jsonify(...)], 201 *)
| CallbackUnhandled (e : exn).

(** [user_data["images"][0]["url"]] under [try], [None] under [except]. *)
Definition first_image_url (user_data : Profile) : option string :=
  url <$> head (pf_images user_data).

(** The user object after the [if user: ... else: ...]: an existing row
    with profile and credentials overwritten, or a new row without
    rooms. *)
Definition signed_in_user (st : Store) (token_data : GrantData) (user_data : Profile)
    (now_access : datetime) : User.t :=
  match users st !! pf_id user_data with
  | Some user =>
      User.mk (User.id user) (pf_display_name user_data) (pf_email user_data)
        (first_image_url user_data) (Some (pf_spotify user_data))
        (Some (pf_href user_data))
        (gd_refresh_token token_data) (gd_access_token token_data)
        (timedelta_seconds (gd_expires_in token_data) + now_access)
        (User.artist_room_1 user) (User.artist_room_2 user)
        (User.genre_room_1 user) (User.genre_room_2 user) (User.rooms_expiry user)
  | None =>
      User.mk (pf_id user_data) (pf_display_name user_data) (pf_email user_data)
        (first_image_url user_data) (Some (pf_spotify user_data))
        (Some (pf_href user_data))
        (gd_refresh_token token_data) (gd_access_token token_data)
        (timedelta_seconds (gd_expires_in token_data) + now_access)
        None None None None None
  end.

(** [spotify_callback], [code] being [request.args.get("code")]. The
    token row is keyed by the code itself; inserting a second row with
    the same key fails at the commit, which then stores nothing. *)
Definition spotify_callback (st : Store) (code : option string) (acc : Accounts)
    (now_access now_token : datetime) : CallbackReply * Store :=
  match code with
  | None => (CallbackAbort 400, st)
  | Some code =>
      match code_grant acc code with
      | None => (CallbackUnhandled KeyError, st)
      | Some token_data =>
          let user_data := me acc (gd_access_token token_data) in
          let user := signed_in_user st token_data user_data now_access in
          let token := Token.mk code (now_token + timedelta_weeks 1) (User.id user) in
          match tokens st !! code with
          | Some _ => (CallbackUnhandled IntegrityError, st)
          | None =>
              (Created (mkLoginJson (User.id user) (pf_display_name user_data)
                          (pf_email user_data) (pf_spotify user_data)
                          (first_image_url user_data)),
               mkStore (<[User.id user := user]> (users st))
                       (<[code := token]> (tokens st)) (rooms st) (messages st))
          end
      end
  end.

Inductive UserReply :=
| UserAbort (status : Z)     (* [abort(400)] *)
| UserFound (id : string).   (* [jsonify({"id": user.id})] *)

Definition get_user (st : Store) (id : string) : UserReply :=
  match users st !! id with
  | None => UserAbort 400
  | Some user => UserFound (User.id user)
  end.

(** ** The contract of the token store, as a reference *)

Inductive Resolution :=
| Unauthorized
| Resolved (user : option User.t).

(** The rule as the specification words it: no record, or
    [now >= token.expiry], is [Unauthorized]; otherwise the owner. *)
Definition resolve_stated (st : Store) (token_id : string) (now : datetime) : Resolution :=
  match tokens st !! token_id with
  | None => Unauthorized
  | Some tok =>
      if bool_decide (Token.expiry tok ≤ now) then Unauthorized
      else Resolved (users st !! Token.user_id tok)
  end.

(** The same rule with the strict comparison: a token is dead once its
    expiry lies strictly in the past. *)
Definition resolve (st : Store) (token_id : string) (now : datetime) : Resolution :=
  match tokens st !! token_id with
  | None => Unauthorized
  | Some tok =>
      if bool_decide (Token.expiry tok < now) then Unauthorized
      else Resolved (users st !! Token.user_id tok)
  end.

(** ** Genre statistics of a provider answer, as a reference *)

(** Every genre tag of every artist, in the order the loops visit them. *)
Definition all_genres (arts : list Artist) : list string :=
  concat (map genres arts).

(** Total frequency of a tag. *)
Definition frequency (g : string) (l : list string) : Z :=
  Z.of_nat (length (filter (λ h, h = g) l)).

(** Position of the first occurrence of a tag ([length l] if absent). *)
Fixpoint first_seen (g : string) (l : list string) : nat :=
  match l with
  | [] => 0%nat
  | h :: l' => if decide (h = g) then 0%nat else S (first_seen g l')
  end.

(** [g] ranks before [h]: more frequent, or as frequent and seen first. *)
Definition ranks_before (l : list string) (g h : string) : Prop :=
  frequency h l < frequency g l
  ∨ (frequency g l = frequency h l ∧ (first_seen g l < first_seen h l)%nat).

(** ** Auxiliary notions for the proofs *)

(** A sequence of [join] events on one connection, each against the store
    and the clock of its moment. *)
Fixpoint join_attempts (sess : Session) (evs : list (Store * string * datetime))
  : list JoinReply * Session :=
  match evs with
  | [] => ([], sess)
  | (st, token_id, now) :: evs' =>
      let '(r, sess1) := join st sess token_id now in
      let '(rs, sess2) := join_attempts sess1 evs' in
      (r :: rs, sess2)
  end.

Definition is_subscribed (r : JoinReply) : bool :=
  match r with
  | Subscribed _ => true
  | _ => false
  end.

(** What [incr] does to an item when the key is already present. *)
Definition bump (g : string) (x : string * Z) : string * Z :=
  if decide (x.1 = g) then (x.1, x.2 + 1) else x.

(** First-seen order on dictionary items. *)
Definition seen_before (l : list string) (x y : string * Z) : Prop :=
  (first_seen x.1 l < first_seen y.1 l)%nat.

(** The order the sort produces: greater count first, and among equal
    counts the item that entered the dictionary first. *)
Definition outranks (l : list string) (x y : string * Z) : Prop :=
  y.2 < x.2 ∨ (x.2 = y.2 ∧ seen_before l x y).

(** The invariant of the counting loops after the tags [l]: the items
    are the tags of [l] with their frequencies, in first-seen order. *)
Record counted (l : list string) (d : list (string * Z)) : Prop := {
  counted_item : ∀ x, x ∈ d → x.1 ∈ l ∧ x.2 = frequency x.1 l;
  counted_key : ∀ g, g ∈ l → g ∈ d.*1;
  counted_order : StronglySorted (seen_before l) d
}.

(** Integrity constraints of the schema. [id] is the primary key of
    [user] and of [room]; [message.user_id] is a foreign key that is
    [nullable=False], and users are never deleted. *)
Definition users_keyed (st : Store) : Prop :=
  map_Forall (λ k u, User.id u = k) (users st).

Definition rooms_keyed (st : Store) : Prop :=
  map_Forall (λ k r, Room.id r = k) (rooms st).

Definition authors_exist (st : Store) : Prop :=
  Forall (λ m, is_Some (users st !! Message.user_id m)) (messages st).

(** The shape of the four dicts the handler builds: an artist dict has
    images, any other dict has its name as identifier. *)
Definition built (room : RoomEntry) : Prop :=
  (re_type room = "artist" → is_Some (re_images room))
  ∧ (re_type room ≠ "artist" → re_name room = re_id room).

(** The four dicts of the cache-miss branch, before the loop fills in
    their messages. *)
Definition built_rooms (a0 a1 : Artist) (g0 g1 : string) : list RoomEntry :=
  [ mkRoomEntry "artist" (artist_name a0) (artist_id a0) (Some (artist_images a0)) [];
    mkRoomEntry "artist" (artist_name a1) (artist_id a1) (Some (artist_images a1)) [];
    mkRoomEntry "genre" g0 g0 None [];
    mkRoomEntry "genre" g1 g1 None [] ].

Definition next_midnight (clk : Clock) : datetime :=
  combine_time_min (today clk) + timedelta_days 1.

(** Integrity of a whole store: the primary keys, the foreign keys
    [message.user_id] and [token.user_id], and, for the rooms a user is
    assigned to, the existence of their rows; a user with a
    [rooms_expiry] has all four assignments. *)
Record consistent (st : Store) : Prop := {
  cons_users : users_keyed st;
  cons_rooms : rooms_keyed st;
  cons_authors : authors_exist st;
  cons_owners : map_Forall (λ _ tok, is_Some (users st !! Token.user_id tok)) (tokens st);
  cons_assigned : map_Forall (λ _ u,
      Forall (λ a, ∀ r, a = Some r → is_Some (rooms st !! r)) (User.assigned u)) (users st);
  cons_complete : map_Forall (λ _ u,
      is_Some (User.rooms_expiry u) → Forall is_Some (User.assigned u)) (users st)
}.

(** The stores the handlers can produce, starting from empty tables. *)
Inductive reachable : Store → Prop :=
| reach_empty : reachable (mkStore ∅ ∅ ∅ [])
| reach_callback st code acc now_access now_token :
    reachable st → reachable (spotify_callback st code acc now_access now_token).2
| reach_rooms st authorization clk prov :
    reachable st → reachable (get_rooms st authorization clk prov).2
| reach_post st sess room body now :
    reachable st → reachable (message_created st sess room body now).1.2.

(** The profile fields that [Message.marshal] reads from a user. *)
Definition profile_of (u : User.t) : UserJson :=
  mkUserJson (User.id u) (User.display_name u) (User.profile_picture u)
    (User.spotify_link u).

(** The ways [get_rooms] can end. *)
Inductive listing_case (st : Store) (authorization : option string)
    (clk : Clock) (prov : Provider)
  : RoomsReply → Store → Prop :=
| listing_refused :
    listing_case st authorization clk prov (Abort 403) st
| listing_raised e :
    e = AttributeError ∨ e = IndexError →
    listing_case st authorization clk prov (Unhandled e) st
| listing_cached tok u rs e :
    (authorization ≫= λ t, tokens st !! t) = Some tok →
    ¬ Token.expiry tok < now_token clk →
    users st !! Token.user_id tok = Some u →
    rooms_stale u (now_rooms clk) = false →
    User.rooms_expiry u = Some e →
    stored_rooms st (User.assigned u) = Ok rs →
    listing_case st authorization clk prov (Json rs (timestamp e)) st
| listing_too_few tok u :
    (authorization ≫= λ t, tokens st !! t) = Some tok →
    ¬ Token.expiry tok < now_token clk →
    users st !! Token.user_id tok = Some u →
    rooms_stale u (now_rooms clk) = true →
    listing_case st authorization clk prov (Plain "Not enough data" 204)
      (with_user (refresh_access prov clk u) st)
| listing_recomputed tok u a0 a1 (g0 g1 : string) rs st' :
    (authorization ≫= λ t, tokens st !! t) = Some tok →
    ¬ Token.expiry tok < now_token clk →
    users st !! Token.user_id tok = Some u →
    rooms_stale u (now_rooms clk) = true →
    ensure_rooms
      (with_user (User.set_rooms (artist_id a0) (artist_id a1) g0 g1
                    (next_midnight clk) (refresh_access prov clk u)) st)
      (built_rooms a0 a1 g0 g1) = Ok (st', rs) →
    listing_case st authorization clk prov
      (Json rs (timestamp (next_midnight clk))) st'.

(** The message row a post inserts. *)
Definition posted (st : Store) (u : User.t) (row : Room.t) (body : string)
    (now : datetime) : Message.t :=
  Message.mk (next_id (messages st)) body now (User.id u) (Room.id row).

(** ** A concrete run *)

Module Demo.
Definition day (n : Z) : datetime := n * microseconds_per_day.

Definition alice : User.t :=
  User.mk "alice" (Some "Alice") (Some "alice@example.org") None
    (Some "https://open.spotify.com/user/alice") None
    "refresh-1" "access-1" (day 11)
    None None None None None.

Definition code1 : Token.t := Token.mk "code1" (day 17) "alice".

Definition st0 : Store :=
  mkStore {[ "alice" := alice ]} {[ "code1" := code1 ]} ∅ [].

Definition A : Artist := mkArtist "a1" "A" [mkImage "https://i/a1" 64 64] ["rock"; "pop"; "rock"].
Definition B : Artist := mkArtist "a2" "B" [] ["rock"].

Definition prov : Provider :=
  mkProvider (λ _, mkTokenData "access-2" 3600)
             (λ _, mkTopArtists 2 [A; B]).

(** All readings of a request at one instant. *)
Definition at_ (t : datetime) : Clock := mkClock t t t t t.

(** Noon of day 10. *)
Definition noon : datetime := day 10 + 12 * 3600 * microseconds_per_second.

(** First listing: cache miss, recomputation. *)
Definition first_call := get_rooms st0 (Some "code1") (at_ noon) prov.
Definition st1 : Store := first_call.2.

(** Second listing, one hour later on the same day. *)
Definition later : datetime := noon + 3600 * microseconds_per_second.
Definition second_call := get_rooms st1 (Some "code1") (at_ later) prov.

Definition types_of (r : RoomsReply) : list string :=
  match r with
  | Json rs _ => map re_type rs
  | _ => []
  end.

Definition ids_of (r : RoomsReply) : list string :=
  match r with
  | Json rs _ => map re_id rs
  | _ => []
  end.

(** The rooms and the expiry of the first answer. *)
Definition first_rooms : list RoomEntry :=
  match first_call.1 with
  | Json rs _ => rs
  | _ => []
  end.

Definition first_expiry : Q := timestamp (day 11).

(** A provider that knows a single top artist. *)
Definition prov_one : Provider :=
  mkProvider (λ _, mkTokenData "access-2" 3600)
             (λ _, mkTopArtists 1 [A]).

(** A provider whose two artists carry the one tag "rock". *)
Definition C : Artist := mkArtist "a3" "C" [] ["rock"; "rock"].

Definition prov_mono : Provider :=
  mkProvider (λ _, mkTokenData "access-2" 3600)
             (λ _, mkTopArtists 2 [C; B]).

(** The connection of alice after her [join], and the store after her
    first post to "rock". *)
Definition joined : Session := (join st1 (mkSession None) "code1" later).2.

Definition first_post := message_created st1 joined "rock" "hello" later.
Definition st2 : Store := first_post.1.2.
End Demo.

(** ** A run from empty tables *)

Module Tour.
Definition empty : Store := mkStore ∅ ∅ ∅ [].

Definition bob_profile : Profile :=
  mkProfile "bob" (Some "Bob") (Some "bob@example.org")
    [mkImage "https://i/bob" 64 64] "https://open.spotify.com/user/bob"
    "https://api.spotify.com/v1/users/bob".

(** The provider accepts the codes "c1" and "c2" and no other. *)
Definition acc : Accounts :=
  mkAccounts
    (λ code, if decide (code = "c1") then Some (mkGrantData "access-b" "refresh-b" 3600)
             else if decide (code = "c2") then Some (mkGrantData "access-c" "refresh-c" 3600)
             else None)
    (λ _, bob_profile).

Definition t0 : datetime := Demo.noon.

(** Sign-in with "c1", listing, join, a post to "rock". *)
Definition sign_in := spotify_callback empty (Some "c1") acc t0 t0.
Definition s1 : Store := sign_in.2.
Definition listing := get_rooms s1 (Some "c1") (Demo.at_ t0) Demo.prov.
Definition s2 : Store := listing.2.
Definition joined := join s2 (mkSession None) "c1" t0.
Definition post := message_created s2 joined.2 "rock" "hello" t0.
Definition s3 : Store := post.1.2.
Definition bob : User.t :=
  User.mk "bob" (Some "Bob") (Some "bob@example.org") (Some "https://i/bob")
    (Some "https://open.spotify.com/user/bob")
    (Some "https://api.spotify.com/v1/users/bob")
    "refresh-b" "access-b" (timedelta_seconds 3600 + t0)
    (Some "a1") (Some "a2") (Some "rock") (Some "pop") (Some (Demo.day 11)).
Definition c1 : Token.t := Token.mk "c1" (t0 + timedelta_weeks 1) "bob".
(** What the listing answered, and the answer of the sign-in. *)
Definition listed : list RoomEntry :=
  match listing.1 with
  | Json rs _ => rs
  | _ => []
  end.

Definition welcome : LoginJson :=
  mkLoginJson "bob" (Some "Bob") (Some "bob@example.org")
    "https://open.spotify.com/user/bob" (Some "https://i/bob").

(** A second sign-in of bob, with the code "c2", after the post. *)
Definition sign_in_again := spotify_callback s3 (Some "c2") acc t0 t0.
Definition s4 : Store := sign_in_again.2.

Definition hello : Message.t := Message.mk 1 "hello" t0 "bob" "rock".

End Tour.

(** * Properties *)

(** ** Token resolution *)

(** C1 (as amended): at the two sites that check a token, the HTTP
    listing [get_rooms] and the realtime [join], one rule applies: the
    operation is refused (HTTP 403, connection refusal) when no Token
    record exists for the identifier or when the token's expiry lies
    strictly before the clock reading, and otherwise it continues for the
    user the token belongs to. A token whose expiry equals the reading is
    still accepted. *)
Theorem token_rule_at_listing_and_join
    (st : Store) (token_id : string) (clk : Clock) (prov : Provider)
    (sess : Session) (now : datetime) :
  get_rooms st (Some token_id) clk prov =
    match resolve st token_id (now_token clk) with
    | Unauthorized => (Abort 403, st)
    | Resolved user => rooms_of_user st user clk prov
    end
  ∧ join st sess token_id now =
    match resolve st token_id now with
    | Unauthorized => (Refused "authentication failed", sess)
    | Resolved user => join_as user sess token_id
    end.
Proof.
  unfold get_rooms, join, resolve; simpl.
  destruct (tokens st !! token_id) as [tok|]; [|done].
  split; case_bool_decide; done.
Qed.

(** C1 (as stated) fails twice on the store [Demo.st1], whose token
    ["code1"] expires at the start of day 17. The stated rule refuses the
    token on day 30, yet a post on that connection is stored and
    acknowledged with 201: [message_created] never looks at the expiry.
    The stated rule also refuses the token at the very instant of its
    expiry, where the listing still answers with the rooms. *)
Lemma token_rule_as_stated_fails :
  (resolve_stated Demo.st1 "code1" (Demo.day 30) = Unauthorized
   ∧ ∃ st' emits,
       message_created Demo.st1 (mkSession (Some "code1")) "rock" "hi" (Demo.day 30)
         = (Acked "Message sent" 201, st', emits)
       ∧ length (messages st') = S (length (messages Demo.st1)))
  ∧ (resolve_stated Demo.st1 "code1" (Demo.day 17) = Unauthorized
     ∧ Demo.ids_of
         (get_rooms Demo.st1 (Some "code1")
            (mkClock (Demo.day 17) Demo.later Demo.later Demo.later Demo.later)
            Demo.prov).1
       = ["a1"; "a2"; "rock"; "pop"]).
Proof.
  split; split; try (vm_compute; reflexivity).
  eexists _, _; split; vm_compute; reflexivity.
Qed.

(** ** Posting *)

(** C2: on a connection whose session token resolves to a user, a post
    to a room that is none of the user's four stored assignments is
    acknowledged with 403, nothing is emitted and the store, hence the
    message log and every room's history, is unchanged. *)
Theorem post_outside_assigned_rooms_forbidden
    (st : Store) (sess : Session) (token_id : string) (tok : Token.t)
    (u : User.t) (room body : string) (now : datetime)
    (Hsess : token sess = Some token_id)
    (Htok : tokens st !! token_id = Some tok)
    (Huser : users st !! Token.user_id tok = Some u)
    (Hroom : Some room ∉ [User.artist_room_1 u; User.artist_room_2 u;
                          User.genre_room_1 u; User.genre_room_2 u]) :
  message_created st sess room body now
    = (Acked "User does not have access to room" 403, st, []).
Proof.
  unfold message_created. rewrite Hsess, Htok, Huser.
  unfold post_as, not_assigned, User.assigned.
  by rewrite bool_decide_eq_true_2.
Qed.

Lemma post_outside_assigned_rooms_forbidden_witness :
  message_created Demo.st1 (mkSession (Some "code1")) "jazz" "hi" Demo.later
    = (Acked "User does not have access to room" 403, Demo.st1, []).
Proof.
  eapply (post_outside_assigned_rooms_forbidden Demo.st1 _ "code1" Demo.code1).
  - reflexivity.
  - vm_compute; reflexivity.
  - vm_compute; reflexivity.
  - vm_compute. intros H. repeat (apply elem_of_cons in H as [H|H]; [discriminate H|]).
    by apply elem_of_nil in H.
Defined.

(** ** Sessions that never joined *)

Lemma join_failed_keeps_session st sess token_id now :
  is_subscribed (join st sess token_id now).1 = false →
  (join st sess token_id now).2 = sess.
Proof.
  unfold join, join_as.
  destruct (tokens st !! token_id) as [tok|]; [|done].
  case_bool_decide; [done|].
  by destruct (users st !! Token.user_id tok).
Qed.

Lemma join_attempts_failed_keep_session evs : ∀ sess,
  forallb (λ r, negb (is_subscribed r)) (join_attempts sess evs).1 = true →
  (join_attempts sess evs).2 = sess.
Proof.
  induction evs as [|[[st token_id] now] evs IH]; intros sess; [done|].
  simpl. pose proof (join_failed_keeps_session st sess token_id now) as Hj.
  destruct (join st sess token_id now) as [r sess1]; simpl in Hj.
  specialize (IH sess1).
  destruct (join_attempts sess1 evs) as [rs sess2]; simpl in *.
  intros [Hr Hrs]%andb_prop.
  rewrite IH by done. apply Hj. by destruct (is_subscribed r).
Qed.

(** C10: a connection starts without [session.token]; if none of its
    [join] events succeeded, a ["new message"] event is not acknowledged
    with 403: reading the absent attribute raises, nothing is emitted and
    nothing is appended. *)
Theorem post_without_join_raises
    (evs : list (Store * string * datetime)) (st : Store)
    (room body : string) (now : datetime)
    (Hnone : forallb (λ r, negb (is_subscribed r))
               (join_attempts (mkSession None) evs).1 = true) :
  message_created st (join_attempts (mkSession None) evs).2 room body now
    = (AckUnhandled AttributeError, st, []).
Proof.
  by rewrite join_attempts_failed_keep_session.
Qed.

Lemma post_without_join_raises_witness :
  message_created Demo.st1
    (join_attempts (mkSession None)
       [(Demo.st1, "nope", Demo.later); (Demo.st1, "code1", Demo.day 30)]).2
    "rock" "hi" Demo.later
  = (AckUnhandled AttributeError, Demo.st1, []).
Proof.
  apply (post_without_join_raises
           [(Demo.st1, "nope", Demo.later); (Demo.st1, "code1", Demo.day 30)]).
  vm_compute; reflexivity.
Defined.

(** ** Genre ranking *)

Section ranking.
Implicit Types (g h : string) (l : list string) (d : list (string * Z)).

Lemma count_genres_flat (arts : list Artist) :
  count_genres arts = foldl (λ d g, incr g d) [] (all_genres arts).
Proof.
  unfold count_genres, all_genres. generalize (@nil (string * Z)).
  induction arts as [|a arts IH]; intros d; simpl; [done|].
  by rewrite foldl_app, IH.
Qed.

Lemma frequency_snoc g l h :
  frequency g (l ++ [h]) = frequency g l + (if decide (h = g) then 1 else 0).
Proof.
  unfold frequency. rewrite filter_app, length_app.
  rewrite Nat2Z.inj_add. f_equal.
  rewrite filter_cons, filter_nil. by destruct (decide (h = g)).
Qed.

Lemma frequency_absent g l : g ∉ l → frequency g l = 0.
Proof.
  unfold frequency. induction l as [|h l IH]; [done|].
  intros [Hne Hl]%not_elem_of_cons. rewrite filter_cons.
  destruct (decide (h = g)); [congruence|]. by apply IH.
Qed.

Lemma first_seen_lt g l : g ∈ l → (first_seen g l < length l)%nat.
Proof.
  induction l as [|h l IH]; [by intros ?%elem_of_nil|].
  intros Hin. simpl. destruct (decide (h = g)); [lia|].
  apply elem_of_cons in Hin as [->|Hin]; [done|]. specialize (IH Hin). lia.
Qed.

Lemma first_seen_absent g l : g ∉ l → first_seen g l = length l.
Proof.
  induction l as [|h l IH]; [done|].
  intros [Hne Hl]%not_elem_of_cons. simpl.
  destruct (decide (h = g)); [congruence|]. by rewrite IH.
Qed.

Lemma first_seen_app_l g l k : g ∈ l → first_seen g (l ++ k) = first_seen g l.
Proof.
  induction l as [|h l IH]; [by intros ?%elem_of_nil|].
  intros Hin. simpl. destruct (decide (h = g)); [done|].
  apply elem_of_cons in Hin as [->|Hin]; [done|]. by rewrite IH.
Qed.

Lemma first_seen_snoc_new g l : g ∉ l → first_seen g (l ++ [g]) = length l.
Proof.
  induction l as [|h l IH]; simpl.
  - intros _. by rewrite decide_True.
  - intros [Hne Hl]%not_elem_of_cons.
    destruct (decide (h = g)); [congruence|]. by rewrite IH.
Qed.

Lemma bump_key g x : (bump g x).1 = x.1.
Proof. unfold bump. by destruct (decide _). Qed.

Lemma bump_absent g d : g ∉ d.*1 → bump g <$> d = d.
Proof.
  induction d as [|[k c] d IH]; [done|].
  rewrite !fmap_cons. intros [Hne Hk]%not_elem_of_cons. simpl in Hne.
  rewrite IH by done. unfold bump; simpl. by rewrite decide_False.
Qed.

Lemma incr_present g d : NoDup d.*1 → g ∈ d.*1 → incr g d = bump g <$> d.
Proof.
  induction d as [|[k c] d IH]; [by intros _ ?%elem_of_nil|].
  rewrite !fmap_cons, NoDup_cons. simpl. intros [Hk Hnd] Hin.
  unfold bump at 1; simpl. destruct (decide (k = g)) as [->|Hne].
  - by rewrite bump_absent.
  - rewrite IH; [done..|].
    apply elem_of_cons in Hin as [?|?]; [congruence|done].
Qed.

Lemma incr_new g d : g ∉ d.*1 → incr g d = d ++ [(g, 1)].
Proof.
  induction d as [|[k c] d IH]; [done|].
  rewrite fmap_cons. intros [Hne Hk]%not_elem_of_cons. simpl in *.
  rewrite decide_False by done. by rewrite IH.
Qed.

Lemma seen_before_NoDup l d : StronglySorted (seen_before l) d → NoDup d.*1.
Proof.
  induction 1 as [|x d Hd IH Hx]; [constructor|].
  rewrite fmap_cons. apply NoDup_cons; split; [|done].
  intros (y & Hxy & Hy)%list_elem_of_fmap.
  rewrite Forall_forall in Hx. specialize (Hx y Hy).
  unfold seen_before in Hx. rewrite Hxy in Hx. lia.
Qed.

Lemma StronglySorted_fmap_strong {A B} (R : relation A) (R' : relation B)
    (f : A → B) (s : list A) :
  (∀ x y, x ∈ s → y ∈ s → R x y → R' (f x) (f y)) →
  StronglySorted R s → StronglySorted R' (f <$> s).
Proof.
  intros Hf Hs. induction Hs as [|x s Hs IH Hx]; [constructor|].
  rewrite fmap_cons. constructor.
  - apply IH. intros y z Hy Hz. apply Hf; by right.
  - apply Forall_forall. intros ? (y & -> & Hy)%list_elem_of_fmap.
    rewrite Forall_forall in Hx. apply Hf; [by left|by right|by apply Hx].
Qed.

Lemma counted_nil : counted [] [].
Proof.
  split; [by intros ? ?%elem_of_nil|by intros ? ?%elem_of_nil|constructor].
Qed.

Lemma counted_snoc l d g : counted l d → counted (l ++ [g]) (incr g d).
Proof.
  intros [Hitem Hkey Hord].
  pose proof (seen_before_NoDup _ _ Hord) as Hnd.
  destruct (decide (g ∈ l)) as [Hg|Hg].
  - rewrite incr_present by auto. split.
    + intros ? (x & -> & Hx)%list_elem_of_fmap.
      destruct (Hitem x Hx) as [Hxl Hxc]. rewrite bump_key. split.
      * apply elem_of_app; by left.
      * rewrite frequency_snoc. unfold bump.
        destruct (decide (x.1 = g)) as [Heq|Hne]; simpl.
        -- rewrite decide_True by done. lia.
        -- rewrite decide_False by done. lia.
    + intros h [Hh| ->%list_elem_of_singleton]%elem_of_app.
      * rewrite <- list_fmap_compose.
        erewrite list_fmap_ext; [by apply Hkey|]. intros ? x _. apply bump_key.
      * rewrite <- list_fmap_compose.
        erewrite list_fmap_ext; [by apply Hkey|]. intros ? x _. apply bump_key.
    + eapply StronglySorted_fmap_strong; [|done].
      intros x y Hx Hy. unfold seen_before. rewrite !bump_key.
      rewrite !first_seen_app_l; [done|by apply Hitem..].
  - assert (g ∉ d.*1) as Hgd.
    { intros (x & -> & Hx)%list_elem_of_fmap. by apply Hg, Hitem. }
    rewrite incr_new by done. split.
    + intros x [Hx| ->%list_elem_of_singleton]%elem_of_app.
      * destruct (Hitem x Hx) as [Hxl Hxc]. split; [apply elem_of_app; by left|].
        rewrite frequency_snoc, decide_False; [lia|]. by intros ->.
      * simpl. split; [apply elem_of_app; right; by apply list_elem_of_singleton|].
        rewrite frequency_snoc, decide_True, frequency_absent by done. done.
    + intros h [Hh| ->%list_elem_of_singleton]%elem_of_app.
      * rewrite fmap_app. apply elem_of_app; left; by apply Hkey.
      * rewrite fmap_app. apply elem_of_app; right. by apply list_elem_of_singleton.
    + apply StronglySorted_app_2.
      * intros x y Hx ->%list_elem_of_singleton. unfold seen_before; simpl.
        rewrite first_seen_app_l, first_seen_snoc_new by (done || by apply Hitem).
        apply first_seen_lt. by apply Hitem.
      * rewrite <- (list_fmap_id d).
        eapply StronglySorted_fmap_strong; [|done].
        intros x y Hx Hy. unfold seen_before; simpl.
        rewrite !first_seen_app_l; [done|by apply Hitem..].
      * repeat constructor.
Qed.

Lemma counted_tally l : counted l (foldl (λ d g, incr g d) [] l).
Proof.
  induction l as [|g l IH] using rev_ind; [apply counted_nil|].
  rewrite foldl_snoc. by apply counted_snoc.
Qed.

Lemma counted_count_genres arts : counted (all_genres arts) (count_genres arts).
Proof. rewrite count_genres_flat. apply counted_tally. Qed.

Lemma insert_desc_perm x s : insert_desc x s ≡ₚ x :: s.
Proof.
  induction s as [|y s IH]; simpl; [done|].
  case_bool_decide; [|done]. rewrite IH. apply Permutation_swap.
Qed.

Lemma sorted_desc_perm d : sorted_desc d ≡ₚ d.
Proof.
  induction d as [|x d IH]; simpl; [done|].
  by rewrite insert_desc_perm, IH.
Qed.

Lemma insert_desc_sorted l x s :
  StronglySorted (outranks l) s → Forall (seen_before l x) s →
  StronglySorted (outranks l) (insert_desc x s).
Proof.
  induction 1 as [|y s Hs IH Hy]; intros Hx; simpl.
  - repeat constructor.
  - apply Forall_cons in Hx as [Hxy Hxs]. case_bool_decide as Hlt.
    + constructor; [by apply IH|].
      rewrite insert_desc_perm. constructor; [by left|done].
    + constructor; [by constructor|]. constructor.
      * unfold outranks. destruct (decide (x.2 = y.2)); [by right|left; lia].
      * rewrite Forall_forall in Hy, Hxs |- *. intros z Hz.
        specialize (Hy z Hz). specialize (Hxs z Hz). unfold outranks in *.
        destruct (decide (x.2 = z.2)); [by right|left; lia].
Qed.

Lemma sorted_desc_sorted l d :
  StronglySorted (seen_before l) d → StronglySorted (outranks l) (sorted_desc d).
Proof.
  induction 1 as [|x d Hd IH Hx]; simpl; [constructor|].
  apply insert_desc_sorted; [done|]. by rewrite sorted_desc_perm.
Qed.

Lemma counted_lookup l d h : counted l d → h ∈ l → (h, frequency h l) ∈ d.
Proof.
  intros Hc Hh. pose proof (counted_key _ _ Hc h Hh) as Hk.
  apply list_elem_of_fmap in Hk as (x & -> & Hx).
  destruct (counted_item _ _ Hc x Hx) as [_ Hf]. rewrite <- Hf. by destruct x.
Qed.

(** What the two leading items of the sorted dictionary are. *)
Lemma top_two l d x0 x1 rest :
  counted l d → sorted_desc d = x0 :: x1 :: rest →
  x0.1 ∈ l ∧ x1.1 ∈ l ∧ x0.1 ≠ x1.1
  ∧ (∀ h, h ∈ l → h ≠ x0.1 → ranks_before l x0.1 h)
  ∧ (∀ h, h ∈ l → h ≠ x0.1 → h ≠ x1.1 → ranks_before l x1.1 h).
Proof.
  intros Hc Hs.
  pose proof (sorted_desc_sorted _ _ (counted_order _ _ Hc)) as Hsorted.
  pose proof (sorted_desc_perm d) as Hperm. rewrite Hs in Hsorted, Hperm.
  assert (∀ x, x ∈ x0 :: x1 :: rest → x.1 ∈ l ∧ x.2 = frequency x.1 l) as Hitem.
  { intros x Hx. apply (counted_item _ _ Hc). by rewrite <- Hperm. }
  destruct (Hitem x0) as [H0l H0c]; [by left|].
  destruct (Hitem x1) as [H1l H1c]; [right; by left|].
  apply StronglySorted_cons in Hsorted as [Hx0 Hsorted].
  apply StronglySorted_cons in Hsorted as [Hx1 _].
  rewrite Forall_forall in Hx0, Hx1.
  assert (∀ x y, outranks l x y → x.2 = frequency x.1 l → y.2 = frequency y.1 l →
                 x.1 ≠ y.1 ∧ ranks_before l x.1 y.1) as Hout.
  { intros x y Hxy Hxc Hyc. unfold outranks, ranks_before, seen_before in *.
    rewrite <- Hxc, <- Hyc. split; [|done].
    intros Heq. rewrite Hxc, Hyc, Heq in Hxy. lia. }
  split_and!; [done|done|..].
  - apply (Hout x0 x1); [apply Hx0; by left|done..].
  - intros h Hh Hne. pose proof (counted_lookup _ _ _ Hc Hh) as Hin.
    rewrite <- Hperm in Hin. apply elem_of_cons in Hin as [Heq|Hin].
    { by rewrite <- Heq in Hne. }
    by apply (Hout x0 (h, frequency h l)); [apply Hx0|..].
  - intros h Hh Hne0 Hne1. pose proof (counted_lookup _ _ _ Hc Hh) as Hin.
    rewrite <- Hperm in Hin. apply elem_of_cons in Hin as [Heq|Hin].
    { by rewrite <- Heq in Hne0. }
    apply elem_of_cons in Hin as [Heq|Hin].
    { by rewrite <- Heq in Hne1. }
    by apply (Hout x1 (h, frequency h l)); [apply Hx1|..].
Qed.

(** Two different tags make the dictionary at least two items long. *)
Lemma ranking_defined l d g h :
  counted l d → g ∈ l → h ∈ l → g ≠ h →
  ∃ x0 x1 rest, sorted_desc d = x0 :: x1 :: rest.
Proof.
  intros Hc Hg Hh Hne.
  pose proof (Permutation_length (sorted_desc_perm d)) as Hlen.
  apply (counted_key _ _ Hc) in Hg, Hh.
  destruct (sorted_desc d) as [|x0 [|x1 rest]]; [..|by eauto];
    destruct d as [|y [|? ?]]; simplify_eq/=.
  - by apply elem_of_nil in Hg.
  - apply list_elem_of_singleton in Hg, Hh. congruence.
Qed.

(** Without two different tags it has at most one. *)
Lemma ranking_short l d :
  counted l d → (∀ g h, g ∈ l → h ∈ l → g = h) → sorted_desc d !! 1%nat = None.
Proof.
  intros Hc Hsame. apply lookup_ge_None.
  rewrite (Permutation_length (sorted_desc_perm d)).
  pose proof (seen_before_NoDup _ _ (counted_order _ _ Hc)) as Hnd.
  destruct d as [|x [|y d]]; simpl; [lia..|].
  exfalso. rewrite !fmap_cons in Hnd.
  apply NoDup_cons in Hnd as [Hx _]. apply Hx.
  apply elem_of_cons; left.
  apply Hsame; apply (counted_item _ _ Hc); [by left|right; by left].
Qed.
End ranking.

(** ** The cache-miss branch *)

Section miss.
Implicit Types (st : Store) (u : User.t) (clk : Clock) (prov : Provider).

(** A valid token whose user row exists leads to [rooms_of_user]. *)
Lemma get_rooms_authorized st token_id tok u clk prov :
  tokens st !! token_id = Some tok →
  ¬ Token.expiry tok < now_token clk →
  users st !! Token.user_id tok = Some u →
  get_rooms st (Some token_id) clk prov = rooms_of_user st (Some u) clk prov.
Proof.
  intros Htok Hexp Hu. unfold get_rooms; simpl.
  by rewrite Htok, bool_decide_eq_false_2, Hu.
Qed.

Lemma refresh_access_rooms prov clk u :
  User.id (refresh_access prov clk u) = User.id u
  ∧ User.rooms_expiry (refresh_access prov clk u) = User.rooms_expiry u
  ∧ User.assigned (refresh_access prov clk u) = User.assigned u.
Proof. unfold refresh_access. by case_bool_decide. Qed.

(** C7: on the cache-miss branch, when the provider reports fewer than
    two top artists, the listing answers 204 "Not enough data"; no Room
    is created, and the user's [rooms_expiry] and four assignments are
    as before (every other user row is untouched as well). *)
Theorem too_few_artists_changes_no_rooms
    st token_id tok u clk prov
    (Htok : tokens st !! token_id = Some tok)
    (Hexp : ¬ Token.expiry tok < now_token clk)
    (Hu : users st !! Token.user_id tok = Some u)
    (Hmiss : rooms_stale u (now_rooms clk) = true)
    (Hfew : total (top_artists prov (User.access_token (refresh_access prov clk u))) < 2) :
  ∃ st' u',
    get_rooms st (Some token_id) clk prov = (Plain "Not enough data" 204, st')
    ∧ rooms st' = rooms st
    ∧ messages st' = messages st
    ∧ users st' !! User.id u = Some u'
    ∧ User.rooms_expiry u' = User.rooms_expiry u
    ∧ User.assigned u' = User.assigned u
    ∧ ∀ k, k ≠ User.id u → users st' !! k = users st !! k.
Proof.
  destruct (refresh_access_rooms prov clk u) as (Hid & Hre & Has).
  eexists _, (refresh_access prov clk u).
  rewrite (get_rooms_authorized _ _ _ _ _ _ Htok Hexp Hu).
  unfold rooms_of_user. rewrite Hmiss, bool_decide_eq_true_2 by done.
  split_and!; try done.
  - simpl. rewrite Hid. apply lookup_insert_eq.
  - intros k Hk. simpl. rewrite Hid. by apply lookup_insert_ne.
Qed.

(** C8: on the cache-miss branch, when the provider reports at least two
    artists but their tags do not contain two different genres, the
    sorted genre list has no second item and the listing ends in the
    unhandled [IndexError]: neither a 200 nor the 204 answer, and nothing
    is stored. *)
Theorem fewer_than_two_genres_raises
    st token_id tok u clk prov
    (Htok : tokens st !! token_id = Some tok)
    (Hexp : ¬ Token.expiry tok < now_token clk)
    (Hu : users st !! Token.user_id tok = Some u)
    (Hmiss : rooms_stale u (now_rooms clk) = true)
    (Henough : 2 ≤ total (top_artists prov (User.access_token (refresh_access prov clk u))))
    (Hsame : ∀ g h,
       g ∈ all_genres (items (top_artists prov (User.access_token (refresh_access prov clk u)))) →
       h ∈ all_genres (items (top_artists prov (User.access_token (refresh_access prov clk u)))) →
       g = h) :
  sorted_desc (count_genres
     (items (top_artists prov (User.access_token (refresh_access prov clk u))))) !! 1%nat = None
  ∧ get_rooms st (Some token_id) clk prov = (Unhandled IndexError, st).
Proof.
  pose proof (ranking_short _ _ (counted_count_genres _) Hsame) as Hshort.
  split; [done|].
  rewrite (get_rooms_authorized _ _ _ _ _ _ Htok Hexp Hu).
  unfold rooms_of_user. rewrite Hmiss. cbv zeta.
  set (data := top_artists prov _) in *.
  rewrite bool_decide_eq_false_2 by lia.
  unfold recompute, index. rewrite Hshort.
  destruct (items data !! 0%nat); simpl; [|done].
  destruct (items data !! 1%nat); simpl; [|done].
  by destruct (sorted_desc (count_genres (items data)) !! 0%nat).
Qed.
End miss.

(** ** Histories and the room loop *)

Section rooms_loop.
Implicit Types (st : Store) (room : RoomEntry).

Lemma history_frame st st' rid :
  users st' = users st → messages st' = messages st →
  history st' rid = history st rid.
Proof. unfold history, room_messages. by intros -> ->. Qed.

Lemma marshal_all_app us (ms ks : list Message.t) :
  marshal_all us (ms ++ ks) =
    js ← marshal_all us ms; js' ← marshal_all us ks; Ok (js ++ js').
Proof.
  induction ms as [|m ms IH]; simpl.
  - by destruct (marshal_all us ks).
  - destruct (marshal us m) as [j|e]; simpl; [|done]. rewrite IH.
    destruct (marshal_all us ms) as [js|e]; simpl; [|done].
    by destruct (marshal_all us ks).
Qed.

Lemma marshal_all_total us (ms : list Message.t) :
  Forall (λ m, is_Some (us !! Message.user_id m)) ms →
  ∃ js, marshal_all us ms = Ok js.
Proof.
  induction 1 as [|m ms [u Hu] _ [js IH]]; simpl; [by eexists|].
  unfold marshal. rewrite Hu; simpl. rewrite IH; simpl. by eexists.
Qed.

Lemma history_total st rid : authors_exist st → ∃ js, history st rid = Ok js.
Proof.
  intros Hst. apply marshal_all_total, Forall_forall.
  intros m [_ Hm]%list_elem_of_filter.
  unfold authors_exist in Hst. rewrite Forall_forall in Hst. by apply Hst.
Qed.

(** What one round of the loop leaves behind when it does not raise. *)
Lemma ensure_room_inv st room st1 room1 :
  ensure_room st room = Ok (st1, room1) →
  users st1 = users st ∧ messages st1 = messages st ∧ tokens st1 = tokens st
  ∧ re_id room1 = re_id room ∧ re_type room1 = re_type room
  ∧ re_name room1 = re_name room
  ∧ (∀ k r, rooms st !! k = Some r → rooms st1 !! k = Some r)
  ∧ (rooms_keyed st → rooms_keyed st1)
  ∧ ∃ row, rooms st1 !! re_id room = Some row
           ∧ history st1 (Room.id row) = Ok (re_messages room1).
Proof.
  unfold ensure_room. intros H.
  assert (∃ st0,
    users st0 = users st ∧ messages st0 = messages st ∧ tokens st0 = tokens st
    ∧ (∀ k r, rooms st !! k = Some r → rooms st0 !! k = Some r)
    ∧ (rooms_keyed st → rooms_keyed st0)
    ∧ (room_class ← attr_of (rooms st0 !! re_id room);
       msgs ← history st0 (Room.id room_class);
       Ok (st0, mkRoomEntry (re_type room) (re_name room) (re_id room)
                  (re_images room) msgs)) = Ok (st1, room1)) as (st0 & Hst0).
  { destruct (rooms st !! re_id room) as [r|] eqn:Hr; simpl in H.
    { exists st. split_and!; done. }
    destruct (decide (re_type room = "artist")).
    - destruct (re_images room) as [imgs|]; simpl in H; [|done].
      eexists; split_and!; [..|exact H]; try done.
      + intros k r Hk. simpl. rewrite lookup_insert_ne; [done|congruence].
      + intros Hkey. by apply map_Forall_insert_2.
    - destruct (rooms st !! re_name room) eqn:Hn; simpl in H; [done|].
      eexists; split_and!; [..|exact H]; try done.
      + intros k r Hk. simpl. rewrite lookup_insert_ne; [done|congruence].
      + intros Hkey. by apply map_Forall_insert_2. }
  destruct Hst0 as (Hu & Hm & Ht & Hmono & Hkey & Hbody).
  destruct (rooms st0 !! re_id room) as [row|] eqn:Hrow; simpl in Hbody; [|done].
  destruct (history st0 (Room.id row)) as [msgs|] eqn:Hh; simpl in Hbody; [|done].
  injection Hbody as <- <-. split_and!; try done. by exists row.
Qed.

Lemma ensure_rooms_inv rs : ∀ st st2 rs1,
  ensure_rooms st rs = Ok (st2, rs1) →
  users st2 = users st ∧ messages st2 = messages st ∧ tokens st2 = tokens st
  ∧ re_id <$> rs1 = re_id <$> rs ∧ re_type <$> rs1 = re_type <$> rs
  ∧ re_name <$> rs1 = re_name <$> rs
  ∧ (∀ k r, rooms st !! k = Some r → rooms st2 !! k = Some r)
  ∧ (rooms_keyed st → rooms_keyed st2)
  ∧ Forall (λ room, ∃ row js, rooms st2 !! re_id room = Some row
                              ∧ history st2 (Room.id row) = Ok js) rs.
Proof.
  induction rs as [|room rs IH]; intros st st2 rs1; simpl.
  { intros [= <- <-]. split_and!; by try constructor. }
  destruct (ensure_room st room) as [[st1 room1]|] eqn:H1; simpl; [|done].
  destruct (ensure_rooms st1 rs) as [[st2' rs1']|] eqn:H2; simpl; [|done].
  intros [= <- <-].
  apply ensure_room_inv in H1
    as (Hu1 & Hm1 & Ht1 & Hid1 & Hty1 & Hn1 & Hmono1 & Hkey1 & row & Hrow & Hhist).
  apply IH in H2 as (Hu2 & Hm2 & Ht2 & Hid2 & Hty2 & Hn2 & Hmono2 & Hkey2 & Hall).
  split_and!; [congruence..| | | |auto|auto|].
  - rewrite !fmap_cons. by f_equal.
  - rewrite !fmap_cons. by f_equal.
  - rewrite !fmap_cons. by f_equal.
  - constructor; [|done]. exists row, (re_messages room1). split; [auto|].
    rewrite <- Hhist. apply history_frame; congruence.
Qed.

Lemma ensure_room_total st room :
  authors_exist st → built room →
  ∃ st1 room1, ensure_room st room = Ok (st1, room1).
Proof.
  intros Hst [Hart Hgenre]. unfold ensure_room.
  assert (∀ st0, users st0 = users st → messages st0 = messages st →
                 is_Some (rooms st0 !! re_id room) →
    ∃ st1 room1,
      (room_class ← attr_of (rooms st0 !! re_id room);
       msgs ← history st0 (Room.id room_class);
       Ok (st0, mkRoomEntry (re_type room) (re_name room) (re_id room)
                  (re_images room) msgs)) = Ok (st1, room1)) as Hbody.
  { intros st0 Hu Hm [row Hrow]. rewrite Hrow; simpl.
    destruct (history_total st (Room.id row) Hst) as [js Hjs].
    rewrite (history_frame st st0) by done. rewrite Hjs; simpl. by eexists _, _. }
  destruct (rooms st !! re_id room) as [r|] eqn:Hr; simpl.
  { apply Hbody; [done..|]. by rewrite Hr. }
  destruct (decide (re_type room = "artist")) as [Hty|Hty].
  - destruct (Hart Hty) as [imgs Himgs]. rewrite Himgs in Hbody |- *; simpl.
    apply Hbody; [done..|]. simpl. by rewrite lookup_insert_eq.
  - pose proof (Hgenre Hty) as Hn. rewrite Hn in Hbody |- *. rewrite Hr; simpl.
    apply Hbody; [done..|]. simpl. by rewrite lookup_insert_eq.
Qed.

Lemma ensure_rooms_total rs : ∀ st,
  authors_exist st → Forall built rs →
  ∃ st2 rs1, ensure_rooms st rs = Ok (st2, rs1).
Proof.
  induction rs as [|room rs IH]; intros st Hst Hrs; simpl; [by eexists _, _|].
  apply Forall_cons in Hrs as [Hroom Hrs].
  destruct (ensure_room_total st room Hst Hroom) as (st1 & room1 & H1).
  rewrite H1; simpl.
  apply ensure_room_inv in H1 as (Hu1 & Hm1 & _).
  destruct (IH st1) as (st2 & rs1 & H2); [|done|].
  { unfold authors_exist. by rewrite Hu1, Hm1. }
  rewrite H2; simpl. by eexists _, _.
Qed.
End rooms_loop.

(** ** Recomputation *)

Section recomputation.
Implicit Types (st : Store) (u : User.t) (clk : Clock) (prov : Provider).

Lemma bind_Ok_inv {A B} (r : Result A) (k : A → Result B) (b : B) :
  r ≫= k = Ok b → ∃ a, r = Ok a ∧ k a = Ok b.
Proof. destruct r as [a|e]; [by exists a|done]. Qed.

Lemma recompute_inv st u clk data st1 rs e :
  recompute st u clk data = Ok (st1, rs, e) →
  ∃ a0 a1 x0 x1,
    items data !! 0%nat = Some a0 ∧ items data !! 1%nat = Some a1
    ∧ sorted_desc (count_genres (items data)) !! 0%nat = Some x0
    ∧ sorted_desc (count_genres (items data)) !! 1%nat = Some x1
    ∧ e = next_midnight clk
    ∧ ensure_rooms
        (with_user (User.set_rooms (artist_id a0) (artist_id a1) x0.1 x1.1
                      (next_midnight clk) u) st)
        (built_rooms a0 a1 x0.1 x1.1) = Ok (st1, rs).
Proof.
  unfold recompute, index. intros H.
  apply bind_Ok_inv in H as (a0 & Ha0 & H).
  apply bind_Ok_inv in H as (a1 & Ha1 & H).
  apply bind_Ok_inv in H as (x0 & Hx0 & H).
  apply bind_Ok_inv in H as (x1 & Hx1 & H).
  apply bind_Ok_inv in H as ([st' rs'] & Hloop & H).
  exists a0, a1, x0, x1.
  destruct (items data !! 0%nat); [|done].
  destruct (items data !! 1%nat); [|done].
  destruct (sorted_desc (count_genres (items data)) !! 0%nat); [|done].
  destruct (sorted_desc (count_genres (items data)) !! 1%nat); [|done].
  simplify_eq. done.
Qed.

Lemma built_rooms_built a0 a1 g0 g1 : Forall built (built_rooms a0 a1 g0 g1).
Proof. repeat constructor; simpl; by eauto. Qed.

Lemma recompute_total st u clk data a0 a1 rest x0 x1 srest :
  authors_exist st →
  items data = a0 :: a1 :: rest →
  sorted_desc (count_genres (items data)) = x0 :: x1 :: srest →
  ∃ st1 rs, recompute st u clk data = Ok (st1, rs, next_midnight clk).
Proof.
  intros Hst Hitems Hsorted. unfold recompute, index.
  rewrite Hsorted, Hitems. cbn [lookup list_lookup mbind Result_bind].
  destruct (ensure_rooms_total (built_rooms a0 a1 x0.1 x1.1)
              (with_user (User.set_rooms (artist_id a0) (artist_id a1) x0.1 x1.1
                            (next_midnight clk) u) st))
    as (st1 & rs & H).
  - unfold authors_exist in *. simpl. eapply Forall_impl; [exact Hst|].
    intros m Hm. simpl in Hm. apply lookup_insert_is_Some'. by right.
  - apply built_rooms_built.
  - unfold built_rooms, next_midnight in H. rewrite H. by eexists _, _.
Qed.

(** C5: the genre rooms are a function of the provider's artist list,
    namely the two tags that rank first when tags are ordered by total
    frequency over all returned artists, the more frequent first and,
    among equally frequent tags, the one met first. Whenever the list
    has two artists and two different tags (and the stored messages have
    their authors), the recomputation answers 200 and stores the two
    leading artists' identifiers and these two tags, in that order. *)
Theorem genre_rooms_are_top_two
    st token_id tok u clk prov a0 a1 rest g h
    (Htok : tokens st !! token_id = Some tok)
    (Hexp : ¬ Token.expiry tok < now_token clk)
    (Hu : users st !! Token.user_id tok = Some u)
    (Hmiss : rooms_stale u (now_rooms clk) = true)
    (Hst : authors_exist st)
    (Henough : 2 ≤ total (top_artists prov (User.access_token (refresh_access prov clk u))))
    (Hitems : items (top_artists prov (User.access_token (refresh_access prov clk u)))
              = a0 :: a1 :: rest)
    (Hg : g ∈ all_genres (a0 :: a1 :: rest))
    (Hh : h ∈ all_genres (a0 :: a1 :: rest))
    (Hgh : g ≠ h) :
  ∃ g0 g1 rs expiry st' u',
    get_rooms st (Some token_id) clk prov = (Json rs expiry, st')
    ∧ users st' !! User.id u = Some u'
    ∧ User.assigned u' = [Some (artist_id a0); Some (artist_id a1); Some g0; Some g1]
    ∧ re_id <$> rs = [artist_id a0; artist_id a1; g0; g1]
    ∧ g0 ∈ all_genres (a0 :: a1 :: rest)
    ∧ g1 ∈ all_genres (a0 :: a1 :: rest)
    ∧ g0 ≠ g1
    ∧ (∀ t, t ∈ all_genres (a0 :: a1 :: rest) → t ≠ g0 →
            ranks_before (all_genres (a0 :: a1 :: rest)) g0 t)
    ∧ (∀ t, t ∈ all_genres (a0 :: a1 :: rest) → t ≠ g0 → t ≠ g1 →
            ranks_before (all_genres (a0 :: a1 :: rest)) g1 t).
Proof.
  rewrite (get_rooms_authorized _ _ _ _ _ _ Htok Hexp Hu).
  unfold rooms_of_user. rewrite Hmiss. cbv zeta.
  set (data := top_artists prov _) in *.
  rewrite bool_decide_eq_false_2 by lia.
  pose proof (counted_count_genres (items data)) as Hc. rewrite Hitems in Hc.
  destruct (ranking_defined _ _ g h Hc Hg Hh Hgh) as (x0 & x1 & srest & Hsorted).
  destruct (top_two _ _ _ _ _ Hc Hsorted) as (H0 & H1 & Hne & Hfirst & Hsecond).
  rewrite <- Hitems in Hsorted.
  destruct (recompute_total st (refresh_access prov clk u) clk data
              _ _ _ _ _ _ Hst Hitems Hsorted) as (st1 & rs & Hre).
  rewrite Hre.
  apply recompute_inv in Hre as (b0 & b1 & y0 & y1 & Hb0 & Hb1 & Hy0 & Hy1 & _ & Hloop).
  rewrite Hitems in Hb0, Hb1. rewrite Hsorted in Hy0, Hy1.
  simpl in Hb0, Hb1, Hy0, Hy1. simplify_eq.
  apply ensure_rooms_inv in Hloop as (Husers & _ & _ & Hids & _).
  destruct (refresh_access_rooms prov clk u) as (Hid & _).
  exists y0.1, y1.1, rs, (timestamp (next_midnight clk)), st1. eexists.
  split_and!; try done.
  - rewrite Husers. simpl. rewrite Hid. apply lookup_insert_eq.
  - done.
Qed.

(** The assigned expiry is the first instant of the day after [today]. *)
Lemma next_midnight_spec clk :
  next_midnight clk `mod` microseconds_per_day = 0
  ∧ today clk < next_midnight clk
  ∧ next_midnight clk ≤ today clk + microseconds_per_day.
Proof.
  unfold next_midnight, combine_time_min, timedelta_days.
  assert (0 < microseconds_per_day) as Hpos by done.
  generalize dependent microseconds_per_day. intros D HD.
  pose proof (Z.mod_pos_bound (today clk) D HD).
  pose proof (Z.div_mod (today clk) D ltac:(lia)).
  split_and!; [|lia..].
  replace (today clk `div` D * D + 1 * D) with ((today clk `div` D + 1) * D) by lia.
  apply Z.mod_mul. lia.
Qed.

Lemma stored_rooms_ok st (ids : list string) :
  rooms_keyed st →
  Forall (λ i, ∃ row js, rooms st !! i = Some row
                         ∧ history st (Room.id row) = Ok js) ids →
  ∃ rs, stored_rooms st (Some <$> ids) = Ok rs ∧ re_id <$> rs = ids.
Proof.
  intros Hkey. induction 1 as [|i ids (row & js & Hrow & Hjs) _ (rs & Hrs & Hids)].
  { by exists []. }
  rewrite fmap_cons. simpl. unfold stored_room. simpl.
  rewrite Hrow; simpl. rewrite Hjs; simpl. rewrite Hrs; simpl.
  eexists; split; [done|]. rewrite fmap_cons, Hids. simpl.
  f_equal. by apply (map_Forall_lookup_1 _ _ _ _ Hkey).
Qed.

(** C6: a recomputation sets [rooms_expiry] to the first instant of the
    next calendar day of the reference clock, and answers with it. A
    later listing with the same (still valid) token whose clock reading
    lies before that midnight does not recompute: whatever the provider
    would say, it leaves the store as it is and answers with the same
    four room identifiers and the same expiry. *)
Theorem recomputation_cached_until_midnight
    st token_id tok u clk prov rs expiry st'
    (Htok : tokens st !! token_id = Some tok)
    (Hexp : ¬ Token.expiry tok < now_token clk)
    (Hu : users st !! Token.user_id tok = Some u)
    (Hukey : users_keyed st)
    (Hrkey : rooms_keyed st)
    (Hmiss : rooms_stale u (now_rooms clk) = true)
    (Hcall : get_rooms st (Some token_id) clk prov = (Json rs expiry, st')) :
  (∃ u', users st' !! Token.user_id tok = Some u'
         ∧ User.rooms_expiry u' = Some (next_midnight clk)
         ∧ User.assigned u' = Some <$> (re_id <$> rs))
  ∧ expiry = timestamp (next_midnight clk)
  ∧ next_midnight clk `mod` microseconds_per_day = 0
  ∧ today clk < next_midnight clk ≤ today clk + microseconds_per_day
  ∧ ∀ clk2 prov2,
      ¬ Token.expiry tok < now_token clk2 →
      now_rooms clk2 < next_midnight clk →
      ∃ rs2, get_rooms st' (Some token_id) clk2 prov2 = (Json rs2 expiry, st')
             ∧ re_id <$> rs2 = re_id <$> rs.
Proof.
  rewrite (get_rooms_authorized _ _ _ _ _ _ Htok Hexp Hu) in Hcall.
  unfold rooms_of_user in Hcall. rewrite Hmiss in Hcall. cbv zeta in Hcall.
  set (u1 := refresh_access prov clk u) in *.
  set (data := top_artists prov _) in *.
  case_bool_decide; [done|].
  destruct (recompute st u1 clk data) as [[[st1 rs1] e]|] eqn:Hre; [|done].
  injection Hcall as <- <- <-.
  apply recompute_inv in Hre as (a0 & a1 & x0 & x1 & _ & _ & _ & _ & -> & Hloop).
  apply ensure_rooms_inv in Hloop
    as (Husers & _ & Htokens & Hids & _ & _ & _ & Hkeyed & Hrows).
  destruct (refresh_access_rooms prov clk u) as (Hid & _). fold u1 in Hid.
  pose proof (map_Forall_lookup_1 _ _ _ _ Hukey Hu) as Hk. simpl in Hk.
  set (user := User.set_rooms _ _ _ _ _ u1) in *.
  assert (users st1 !! Token.user_id tok = Some user) as Huser.
  { rewrite Husers. simpl. rewrite <- Hk, <- Hid. apply lookup_insert_eq. }
  destruct (next_midnight_spec clk) as (Hmod & Hlt & Hle).
  split_and!; try done.
  { exists user. split_and!; [done..|]. by rewrite Hids. }
  intros clk2 prov2 Hexp2 Hnow2.
  rewrite (get_rooms_authorized st1 _ tok user); [|by rewrite Htokens|done..].
  unfold rooms_of_user.
  replace (rooms_stale user (now_rooms clk2)) with false
    by (unfold rooms_stale; simpl; by rewrite bool_decide_eq_false_2 by lia).
  destruct (stored_rooms_ok st1 (re_id <$> built_rooms a0 a1 x0.1 x1.1))
    as (rs2 & Hrs2 & Hids2).
  { by apply Hkeyed. }
  { apply Forall_fmap. exact Hrows. }
  change (User.assigned user) with (Some <$> (re_id <$> built_rooms a0 a1 x0.1 x1.1)).
  rewrite Hrs2. exists rs2. split; [done|]. by rewrite Hids2, Hids.
Qed.
End recomputation.

(** ** Posting and reading back *)

(** C9: a message posted to one of the caller's rooms is stored at the
    end of the log and broadcast as [{id, body, timestamp, room_id,
    user: {id, display_name, profile_picture, spotify_link}}]; reading
    the room's history back (as the listing does for a stored room)
    yields the earlier history followed by exactly that broadcast
    value. *)
Theorem posted_message_round_trip
    (st : Store) (sess : Session) (token_id : string) (tok : Token.t)
    (u : User.t) (room : string) (row : Room.t) (body : string) (now : datetime)
    (Hsess : token sess = Some token_id)
    (Htok : tokens st !! token_id = Some tok)
    (Hu : users st !! Token.user_id tok = Some u)
    (Hukey : users_keyed st)
    (Hmember : Some room ∈ User.assigned u)
    (Hrow : rooms st !! room = Some row)
    (Hst : authors_exist st) :
  ∃ m j hist st',
    message_created st sess room body now
      = (Acked "Message sent" 201, st', [mkEmit "new message" j room])
    ∧ messages st' = messages st ++ [m]
    ∧ marshal (users st') m = Ok j
    ∧ j = mkMessageJson (Message.id m) body (timestamp now) (Room.id row)
            (mkUserJson (User.id u) (User.display_name u)
               (User.profile_picture u) (User.spotify_link u))
    ∧ history st (Room.id row) = Ok hist
    ∧ history st' (Room.id row) = Ok (hist ++ [j])
    ∧ stored_room st' (Some room)
      = Ok (mkRoomEntry (Room.room_type row) (Room.name row) (Room.id row)
              (Room.images row) (hist ++ [j])).
Proof.
  destruct (history_total st (Room.id row) Hst) as [hist Hhist].
  pose proof (map_Forall_lookup_1 _ _ _ _ Hukey Hu) as Hk. simpl in Hk.
  set (m := Message.mk (next_id (messages st)) body now (User.id u) (Room.id row)).
  assert (marshal (users st) m
          = Ok (mkMessageJson (Message.id m) body (timestamp now) (Room.id row)
                  (mkUserJson (User.id u) (User.display_name u)
                     (User.profile_picture u) (User.spotify_link u)))) as Hm.
  { unfold marshal. subst m. cbn [Message.user_id].
    replace (users st !! User.id u) with (Some u) by (by rewrite Hk, Hu). done. }
  assert (history (with_message m st) (Room.id row)
          = Ok (hist ++ [mkMessageJson (Message.id m) body (timestamp now) (Room.id row)
                  (mkUserJson (User.id u) (User.display_name u)
                     (User.profile_picture u) (User.spotify_link u))])) as Hhist'.
  { unfold history, room_messages in *. simpl.
    rewrite filter_app, marshal_all_app, Hhist.
    rewrite filter_cons_True by done. rewrite filter_nil. simpl.
    by rewrite Hm. }
  eexists m, _, hist, (with_message m st).
  unfold message_created. rewrite Hsess, Htok, Hu.
  unfold post_as, not_assigned.
  rewrite bool_decide_eq_false_2 by (intros Hn; by apply Hn).
  rewrite Hrow. fold m. change (users (with_message m st)) with (users st).
  rewrite Hm. split_and!; try done.
  unfold stored_room. simpl. rewrite Hrow; simpl. by rewrite Hhist'.
Qed.

(** ** The concrete run *)

Section run.
Import Demo.

Local Ltac evaluate := vm_compute; first [reflexivity | by intros ?].

Lemma demo_st0_users_keyed : users_keyed st0.
Proof. apply map_Forall_singleton. reflexivity. Qed.

Lemma demo_st0_rooms_keyed : rooms_keyed st0.
Proof. apply map_Forall_empty. Qed.

Lemma demo_st2_users_keyed : users_keyed st2.
Proof.
  change (users st2) with (<["alice" := User.set_rooms "a1" "a2" "rock" "pop" (day 11) alice]>
                             (users st0)).
  apply map_Forall_insert_2; [reflexivity|apply demo_st0_users_keyed].
Qed.

Lemma demo_tags : "rock" ∈ all_genres [A; B] ∧ "pop" ∈ all_genres [A; B].
Proof. split; vm_compute; repeat constructor. Qed.

(** C3, on the run: the first listing (recomputation) shows the two
    genre rooms with type "genre"; the second listing, an hour later,
    with the store left exactly as the first one left it, shows the same
    rooms with type "artist". *)
Lemma genre_rooms_typed_artist_on_cache_hit :
  types_of first_call.1 = ["artist"; "artist"; "genre"; "genre"]
  ∧ ids_of first_call.1 = ["a1"; "a2"; "rock"; "pop"]
  ∧ second_call.2 = st1
  ∧ types_of second_call.1 = ["artist"; "artist"; "artist"; "artist"]
  ∧ ids_of second_call.1 = ["a1"; "a2"; "rock"; "pop"].
Proof. split_and!; evaluate. Qed.

(** C4, on the run: the rows that the recomputation creates for the two
    genre rooms carry [room_type = "artist"]. *)
Lemma genre_room_rows_stored_as_artist :
  rooms st0 !! "rock" = None
  ∧ rooms st0 !! "pop" = None
  ∧ rooms st1 !! "rock" = Some (Room.mk "rock" None "rock" "artist")
  ∧ rooms st1 !! "pop" = Some (Room.mk "pop" None "pop" "artist").
Proof. split_and!; evaluate. Qed.

Lemma genre_rooms_are_top_two_witness :
  ∃ g0 g1 rs expiry st' u',
    get_rooms st0 (Some "code1") (at_ noon) prov = (Json rs expiry, st')
    ∧ users st' !! "alice" = Some u'
    ∧ User.assigned u' = [Some "a1"; Some "a2"; Some g0; Some g1]
    ∧ re_id <$> rs = ["a1"; "a2"; g0; g1]
    ∧ g0 ∈ all_genres [A; B]
    ∧ g1 ∈ all_genres [A; B]
    ∧ g0 ≠ g1
    ∧ (∀ t, t ∈ all_genres [A; B] → t ≠ g0 → ranks_before (all_genres [A; B]) g0 t)
    ∧ (∀ t, t ∈ all_genres [A; B] → t ≠ g0 → t ≠ g1 →
            ranks_before (all_genres [A; B]) g1 t).
Proof.
  apply (genre_rooms_are_top_two st0 "code1" code1 alice (at_ noon) prov
           A B [] "rock" "pop").
  - reflexivity.
  - evaluate.
  - reflexivity.
  - reflexivity.
  - constructor.
  - evaluate.
  - reflexivity.
  - apply demo_tags.
  - apply demo_tags.
  - discriminate.
Defined.

Lemma recomputation_cached_until_midnight_witness :
  (∃ u', users st1 !! "alice" = Some u'
         ∧ User.rooms_expiry u' = Some (next_midnight (at_ noon))
         ∧ User.assigned u' = Some <$> (re_id <$> first_rooms))
  ∧ first_expiry = timestamp (next_midnight (at_ noon))
  ∧ next_midnight (at_ noon) `mod` microseconds_per_day = 0
  ∧ today (at_ noon) < next_midnight (at_ noon) ≤ today (at_ noon) + microseconds_per_day
  ∧ ∀ clk2 prov2,
      ¬ Token.expiry code1 < now_token clk2 →
      now_rooms clk2 < next_midnight (at_ noon) →
      ∃ rs2, get_rooms st1 (Some "code1") clk2 prov2 = (Json rs2 first_expiry, st1)
             ∧ re_id <$> rs2 = re_id <$> first_rooms.
Proof.
  apply (recomputation_cached_until_midnight st0 "code1" code1 alice (at_ noon) prov
           first_rooms first_expiry st1).
  - reflexivity.
  - evaluate.
  - reflexivity.
  - apply demo_st0_users_keyed.
  - apply demo_st0_rooms_keyed.
  - reflexivity.
  - evaluate.
Defined.

Lemma too_few_artists_changes_no_rooms_witness :
  ∃ st' u',
    get_rooms st0 (Some "code1") (at_ noon) prov_one = (Plain "Not enough data" 204, st')
    ∧ rooms st' = rooms st0
    ∧ messages st' = messages st0
    ∧ users st' !! "alice" = Some u'
    ∧ User.rooms_expiry u' = None
    ∧ User.assigned u' = [None; None; None; None]
    ∧ ∀ k, k ≠ "alice" → users st' !! k = users st0 !! k.
Proof.
  apply (too_few_artists_changes_no_rooms st0 "code1" code1 alice (at_ noon) prov_one).
  - reflexivity.
  - evaluate.
  - reflexivity.
  - reflexivity.
  - evaluate.
Defined.

Lemma fewer_than_two_genres_raises_witness :
  sorted_desc (count_genres [C; B]) !! 1%nat = None
  ∧ get_rooms st0 (Some "code1") (at_ noon) prov_mono = (Unhandled IndexError, st0).
Proof.
  apply (fewer_than_two_genres_raises st0 "code1" code1 alice (at_ noon) prov_mono).
  - reflexivity.
  - evaluate.
  - reflexivity.
  - reflexivity.
  - evaluate.
  - assert (∀ g, g ∈ all_genres [C; B] → g = "rock") as Hrock.
    { intros g Hg. vm_compute in Hg.
      repeat (apply elem_of_cons in Hg as [Hg|Hg]; [done|]).
      by apply elem_of_nil in Hg. }
    intros g h Hg Hh. apply Hrock in Hg, Hh. congruence.
Defined.

Lemma posted_message_round_trip_witness :
  ∃ m j hist st',
    message_created st2 joined "rock" "again" (day 30)
      = (Acked "Message sent" 201, st', [mkEmit "new message" j "rock"])
    ∧ messages st' = messages st2 ++ [m]
    ∧ marshal (users st') m = Ok j
    ∧ j = mkMessageJson (Message.id m) "again" (timestamp (day 30)) "rock"
            (mkUserJson "alice" (Some "Alice") None
               (Some "https://open.spotify.com/user/alice"))
    ∧ history st2 "rock" = Ok hist
    ∧ history st' "rock" = Ok (hist ++ [j])
    ∧ stored_room st' (Some "rock")
      = Ok (mkRoomEntry "artist" "rock" "rock" None (hist ++ [j])).
Proof.
  apply (posted_message_round_trip st2 joined "code1" code1
           (User.set_rooms "a1" "a2" "rock" "pop" (day 11) alice)
           "rock" (Room.mk "rock" None "rock" "artist") "again" (day 30)).
  - reflexivity.
  - evaluate.
  - evaluate.
  - apply demo_st2_users_keyed.
  - vm_compute. do 2 right. left.
  - evaluate.
  - constructor; [vm_compute; by eexists|constructor].
Defined.
End run.

(** * Further properties of the handlers *)

#[local] Set Warnings "-clear-no-such-hyp".

(** ** Sorting and counting on their own *)

Section sort_count.
Implicit Types (d s : list (string * Z)) (l : list string).

Lemma insert_desc_descending x s :
  StronglySorted (λ a b, b.2 ≤ a.2) s →
  StronglySorted (λ a b, b.2 ≤ a.2) (insert_desc x s).
Proof.
  induction 1 as [|y s Hs IH Hy]; simpl; [repeat constructor|].
  case_bool_decide as Hlt.
  - constructor; [done|]. rewrite insert_desc_perm. constructor; [lia|done].
  - constructor; [by constructor|]. constructor; [lia|].
    eapply Forall_impl; [exact Hy|]. intros z Hz. simpl in Hz. lia.
Qed.

Lemma insert_desc_filter c x s :
  filter (λ a, a.2 = c) (insert_desc x s) = filter (λ a, a.2 = c) (x :: s).
Proof.
  induction s as [|y s IH]; simpl; [done|].
  case_bool_decide as Hlt; [|done].
  rewrite (filter_cons _ y), IH, !(filter_cons _ x), (filter_cons _ y).
  destruct (decide (y.2 = c)), (decide (x.2 = c)); try done. lia.
Qed.

(** X1: [sorted(..., key=item[1], reverse=True)] as modelled returns the
    items it was given, in non-increasing order of count, and items of
    one count come out in the order they went in. *)
Theorem sorted_desc_is_stable_descending_sort d :
  sorted_desc d ≡ₚ d
  ∧ StronglySorted (λ a b, b.2 ≤ a.2) (sorted_desc d)
  ∧ ∀ c, filter (λ a, a.2 = c) (sorted_desc d) = filter (λ a, a.2 = c) d.
Proof.
  split_and!.
  - apply sorted_desc_perm.
  - induction d as [|x d IH]; simpl; [constructor|]. by apply insert_desc_descending.
  - intros c. induction d as [|x d IH]; simpl; [done|].
    rewrite insert_desc_filter, !(filter_cons _ x), IH. done.
Qed.

Lemma incr_total g d :
  foldr (λ a n, a.2 + n) 0 (incr g d) = 1 + foldr (λ a n, a.2 + n) 0 d.
Proof.
  induction d as [|[k c] d IH]; simpl; [done|].
  destruct (decide (k = g)); simpl; [lia|]. rewrite IH. lia.
Qed.

(** X2: the two counting loops build a dictionary whose keys are exactly
    the distinct tags of the artists, each with the number of times it
    occurs (at least once); the counts add up to the number of tags
    read. *)
Theorem count_genres_counts_every_tag (arts : list Artist) :
  NoDup (count_genres arts).*1
  ∧ (∀ g, g ∈ (count_genres arts).*1 ↔ g ∈ all_genres arts)
  ∧ (∀ g c, (g, c) ∈ count_genres arts →
            c = frequency g (all_genres arts) ∧ 1 ≤ c)
  ∧ foldr (λ a n, a.2 + n) 0 (count_genres arts) = Z.of_nat (length (all_genres arts)).
Proof.
  pose proof (counted_count_genres arts) as Hc. split_and!.
  - eapply seen_before_NoDup, counted_order, Hc.
  - intros g. split; [|apply (counted_key _ _ Hc)].
    intros (x & -> & Hx)%list_elem_of_fmap. by apply (counted_item _ _ Hc).
  - intros g c Hin. destruct (counted_item _ _ Hc _ Hin) as [Hg Hf]. simpl in *.
    split; [done|]. rewrite Hf. unfold frequency.
    apply list_elem_of_split in Hg as (l1 & l2 & ->).
    rewrite filter_app, filter_cons_True, length_app by done. simpl. lia.
  - rewrite count_genres_flat. generalize (all_genres arts). intros l.
    induction l as [|g l IH] using rev_ind; [done|].
    rewrite foldl_snoc, incr_total, IH, length_app. simpl. lia.
Qed.
End sort_count.

(** ** What a listing does to the store *)

Section listing.
Implicit Types (st : Store) (u : User.t) (clk : Clock) (prov : Provider).

Lemma marshal_all_raises us (ms : list Message.t) e :
  marshal_all us ms = Raise e → e = AttributeError.
Proof.
  induction ms as [|m ms IH]; simpl; [done|]. unfold marshal at 1.
  destruct (us !! Message.user_id m); simpl; [|congruence].
  destruct (marshal_all us ms) as [js|e']; simpl; [done|].
  intros [= <-]. by apply IH.
Qed.

Lemma history_raises st rid e : history st rid = Raise e → e = AttributeError.
Proof. apply marshal_all_raises. Qed.

Lemma ensure_room_raises st room e :
  built room → ensure_room st room = Raise e → e = AttributeError.
Proof.
  intros [Hart Hgenre]. unfold ensure_room.
  assert (∀ st0, (room_class ← attr_of (rooms st0 !! re_id room);
       msgs ← history st0 (Room.id room_class);
       Ok (st0, mkRoomEntry (re_type room) (re_name room) (re_id room)
                  (re_images room) msgs)) = Raise e → e = AttributeError) as Hbody.
  { intros st0. destruct (rooms st0 !! re_id room) as [row|]; simpl; [|congruence].
    destruct (history st0 (Room.id row)) eqn:Hms; simpl; [done|].
    intros [= <-]. by eapply history_raises. }
  destruct (rooms st !! re_id room) as [r|] eqn:Hr; simpl.
  { apply Hbody. }
  destruct (decide (re_type room = "artist")) as [Hty|Hty].
  - destruct (Hart Hty) as [imgs Himgs]. rewrite Himgs in Hbody |- *; simpl. apply Hbody.
  - pose proof (Hgenre Hty) as Hn. rewrite Hn in Hbody |- *. rewrite Hr; simpl. apply Hbody.
Qed.

Lemma ensure_rooms_raises rs : ∀ st e,
  Forall built rs → ensure_rooms st rs = Raise e → e = AttributeError.
Proof.
  induction rs as [|room rs IH]; intros st e Hb; simpl; [done|].
  apply Forall_cons in Hb as [Hroom Hrs].
  destruct (ensure_room st room) as [[st1 room1]|e1] eqn:H1; simpl.
  - destruct (ensure_rooms st1 rs) as [[st2 rs1]|e2] eqn:H2; simpl; [done|].
    intros [= <-]. by eapply IH.
  - intros [= <-]. by eapply ensure_room_raises.
Qed.

Lemma bind_Raise_inv {A B} (r : Result A) (k : A → Result B) e :
  r ≫= k = Raise e → r = Raise e ∨ ∃ a, r = Ok a ∧ k a = Raise e.
Proof.
  destruct r as [a|e']; simpl; intros H; [right|left; congruence].
  exists a. split; [reflexivity|exact H].
Qed.

Lemma index_raises {A} (l : list A) i e : index l i = Raise e → e = IndexError.
Proof. unfold index. destruct (l !! i); congruence. Qed.

Lemma recompute_raises st u clk data e :
  recompute st u clk data = Raise e → e = AttributeError ∨ e = IndexError.
Proof.
  unfold recompute. intros H.
  apply bind_Raise_inv in H as [H|(a0 & _ & H)]; [right; by eapply index_raises|].
  apply bind_Raise_inv in H as [H|(a1 & _ & H)]; [right; by eapply index_raises|].
  apply bind_Raise_inv in H as [H|(x0 & _ & H)]; [right; by eapply index_raises|].
  apply bind_Raise_inv in H as [H|(x1 & _ & H)]; [right; by eapply index_raises|].
  apply bind_Raise_inv in H as [H|([st1 rs1] & _ & H)]; [|done].
  left. eapply (ensure_rooms_raises (built_rooms a0 a1 x0.1 x1.1)); [|exact H].
  apply built_rooms_built.
Qed.

Lemma stored_rooms_raises st ids e :
  stored_rooms st ids = Raise e → e = AttributeError.
Proof.
  induction ids as [|i ids IH]; simpl; [done|].
  unfold stored_room at 1.
  destruct (i ≫= λ i0, rooms st !! i0) as [row|]; simpl; [|congruence].
  destruct (history st (Room.id row)) eqn:Hms; simpl;
    [|intros [= <-]; by eapply history_raises].
  destruct (stored_rooms st ids); simpl; [done|]. intros [= <-]. by apply IH.
Qed.

Lemma get_rooms_cases st authorization clk prov :
  listing_case st authorization clk prov
    (get_rooms st authorization clk prov).1 (get_rooms st authorization clk prov).2.
Proof.
  unfold get_rooms.
  destruct (authorization ≫= λ t, tokens st !! t) as [tok|] eqn:Htok; [|constructor].
  case_bool_decide as Hexp; [constructor|].
  unfold rooms_of_user.
  destruct (users st !! Token.user_id tok) as [u|] eqn:Hu; [|constructor; by left].
  destruct (rooms_stale u (now_rooms clk)) eqn:Hstale.
  - cbv zeta. set (u1 := refresh_access prov clk u).
    set (data := top_artists prov _).
    case_bool_decide.
    { by eapply listing_too_few. }
    destruct (recompute st u1 clk data) as [[[st1 rs1] e]|e] eqn:Hre.
    + apply recompute_inv in Hre as (a0 & a1 & x0 & x1 & _ & _ & _ & _ & -> & Hloop).
      by eapply listing_recomputed.
    + simpl. constructor. by eapply recompute_raises.
  - destruct (stored_rooms st (User.assigned u)) as [rs|e] eqn:Hrs.
    + destruct (User.rooms_expiry u) as [e|] eqn:He.
      * by eapply listing_cached.
      * unfold rooms_stale in Hstale. by rewrite He in Hstale.
    + simpl. constructor. left. by eapply stored_rooms_raises.
Qed.

Lemma refresh_access_profile prov clk u :
  profile_of (refresh_access prov clk u) = profile_of u
  ∧ User.email (refresh_access prov clk u) = User.email u
  ∧ User.href (refresh_access prov clk u) = User.href u
  ∧ User.refresh_token (refresh_access prov clk u) = User.refresh_token u.
Proof. unfold refresh_access. by case_bool_decide. Qed.

Lemma marshal_profile (us us' : gmap string User.t) (m : Message.t) :
  (∀ k, profile_of <$> us' !! k = profile_of <$> us !! k) →
  marshal us' m = marshal us m.
Proof.
  intros H. specialize (H (Message.user_id m)). unfold marshal.
  destruct (us' !! Message.user_id m) as [u'|], (us !! Message.user_id m) as [u|];
    simpl in *; try done.
  injection H as H1 H2 H3 H4. by rewrite H1, H2, H3, H4.
Qed.

Lemma history_profile st st' rid :
  (∀ k, profile_of <$> users st' !! k = profile_of <$> users st !! k) →
  messages st' = messages st →
  history st' rid = history st rid.
Proof.
  intros Hp Hm. unfold history, room_messages. rewrite Hm.
  induction (filter _ (messages st)) as [|m ms IH]; simpl; [done|].
  by rewrite IH, (marshal_profile _ _ _ Hp).
Qed.

(** The caller's row after a listing that wrote it: same key, same
    profile. *)
Lemma with_user_profile st u u' k :
  users_keyed st → users st !! k = Some u →
  User.id u' = User.id u → profile_of u' = profile_of u →
  ∀ j, profile_of <$> users (with_user u' st) !! j = profile_of <$> users st !! j.
Proof.
  intros Hkey Hu Hid Hp j. simpl.
  pose proof (map_Forall_lookup_1 _ _ _ _ Hkey Hu) as Hk. simpl in Hk.
  destruct (decide (j = User.id u')) as [->|Hne].
  - rewrite lookup_insert_eq, Hid, Hk, Hu. simpl. by rewrite Hp.
  - by rewrite lookup_insert_ne.
Qed.

Lemma get_rooms_frame st authorization clk prov
    (Hkey : users_keyed st) :
  tokens (get_rooms st authorization clk prov).2 = tokens st
  ∧ messages (get_rooms st authorization clk prov).2 = messages st
  ∧ (∀ k r, rooms st !! k = Some r →
            rooms (get_rooms st authorization clk prov).2 !! k = Some r)
  ∧ dom (users (get_rooms st authorization clk prov).2) = dom (users st)
  ∧ ∀ k u, users st !! k = Some u →
      ∃ u', users (get_rooms st authorization clk prov).2 !! k = Some u'
            ∧ profile_of u' = profile_of u
            ∧ User.email u' = User.email u
            ∧ User.refresh_token u' = User.refresh_token u.
Proof.
  assert (∀ u u', users st !! User.id u = Some u →
            User.id u' = User.id u → profile_of u' = profile_of u →
            User.email u' = User.email u →
            User.refresh_token u' = User.refresh_token u →
            dom (<[User.id u' := u']> (users st)) = dom (users st)
            ∧ ∀ k v, users st !! k = Some v →
                ∃ v', <[User.id u' := u']> (users st) !! k = Some v'
                      ∧ profile_of v' = profile_of v
                      ∧ User.email v' = User.email v
                      ∧ User.refresh_token v' = User.refresh_token v) as Hupd.
  { intros u u' Hu Hid Hp He Hr. split.
    - rewrite dom_insert_L, Hid. apply subseteq_union_1_L, singleton_subseteq_l.
      by eapply elem_of_dom_2.
    - intros k v Hv. destruct (decide (k = User.id u')) as [->|Hne].
      + rewrite lookup_insert_eq. rewrite Hid, Hu in Hv. injection Hv as <-. by eauto.
      + rewrite lookup_insert_ne by done. by eauto. }
  destruct (get_rooms_cases st authorization clk prov)
    as [|e He|tok u rs e _ _ _ _ _ _|tok u Htok _ Hu _
        |tok u a0 a1 g0 g1 rs st' Htok _ Hu _ Hloop]; simpl.
  - split_and!; by eauto.
  - split_and!; by eauto.
  - split_and!; by eauto.
  - pose proof (map_Forall_lookup_1 _ _ _ _ Hkey Hu) as Hk. simpl in Hk.
    rewrite <- Hk in Hu.
    destruct (refresh_access_profile prov clk u) as (Hp & He & _ & Hr).
    destruct (refresh_access_rooms prov clk u) as (Hid & _).
    destruct (Hupd u (refresh_access prov clk u)) as [Hdom Hrows]; try done.
  - pose proof (map_Forall_lookup_1 _ _ _ _ Hkey Hu) as Hk. simpl in Hk.
    rewrite <- Hk in Hu.
    destruct (refresh_access_profile prov clk u) as (Hp & He & _ & Hr).
    destruct (refresh_access_rooms prov clk u) as (Hid & _).
    apply ensure_rooms_inv in Hloop as (Hus & Hms & Hts & _ & _ & _ & Hmono & _).
    rewrite Hus, Hms, Hts.
    set (user := User.set_rooms _ _ _ _ _ _) in *.
    destruct (Hupd u user) as [Hdom Hrows]; try done.
Qed.

(** X3: a listing never touches the token table or the message log,
    never removes or rewrites a room row that exists, and adds no user;
    of a user row it leaves the identifier, the profile, the e-mail
    address and the refresh token as they were. *)
Theorem listing_frame st authorization clk prov
    (Hkey : users_keyed st) :
  tokens (get_rooms st authorization clk prov).2 = tokens st
  ∧ messages (get_rooms st authorization clk prov).2 = messages st
  ∧ (∀ k r, rooms st !! k = Some r →
            rooms (get_rooms st authorization clk prov).2 !! k = Some r)
  ∧ dom (users (get_rooms st authorization clk prov).2) = dom (users st)
  ∧ ∀ k u, users st !! k = Some u →
      ∃ u', users (get_rooms st authorization clk prov).2 !! k = Some u'
            ∧ profile_of u' = profile_of u
            ∧ User.email u' = User.email u
            ∧ User.refresh_token u' = User.refresh_token u.
Proof. by apply get_rooms_frame. Qed.

(** X4: a listing leaves the history of every room as it was: whatever it
    writes to the caller's row, no marshalled message changes. *)
Theorem listing_keeps_histories st authorization clk prov rid
    (Hkey : users_keyed st) :
  history (get_rooms st authorization clk prov).2 rid = history st rid.
Proof.
  destruct (get_rooms_frame st authorization clk prov Hkey) as (_ & Hms & _ & Hdom & Hrows).
  apply history_profile; [|done]. intros k.
  destruct (users st !! k) as [u|] eqn:Hu.
  - destruct (Hrows k u Hu) as (u' & -> & Hp & _). simpl. by rewrite Hp.
  - apply not_elem_of_dom in Hu. rewrite <- Hdom in Hu.
    apply not_elem_of_dom in Hu. by rewrite Hu.
Qed.

(** X5: while the caller's [rooms_expiry] has not passed, a listing with
    a valid token reads only: the store is returned as it is and the
    answer does not depend on the provider. *)
Theorem cached_listing_reads_only st token_id tok u clk prov prov'
    (Htok : tokens st !! token_id = Some tok)
    (Hexp : ¬ Token.expiry tok < now_token clk)
    (Hu : users st !! Token.user_id tok = Some u)
    (Hhit : rooms_stale u (now_rooms clk) = false) :
  (get_rooms st (Some token_id) clk prov).2 = st
  ∧ get_rooms st (Some token_id) clk prov' = get_rooms st (Some token_id) clk prov.
Proof.
  rewrite !(get_rooms_authorized _ _ _ _ _ _ Htok Hexp Hu).
  unfold rooms_of_user. rewrite Hhit. split; [|done].
  by destruct (stored_rooms st (User.assigned u)), (User.rooms_expiry u).
Qed.

Lemma stored_rooms_inv st ids : ∀ rs,
  stored_rooms st ids = Ok rs →
  Forall2 (λ i r, ∃ k row, i = Some k ∧ rooms st !! k = Some row
                           ∧ re_id r = Room.id row
                           ∧ re_type r = Room.room_type row
                           ∧ re_name r = Room.name row
                           ∧ history st (Room.id row) = Ok (re_messages r)) ids rs.
Proof.
  induction ids as [|i ids IH]; intros rs; simpl.
  { intros [= <-]. constructor. }
  intros H. apply bind_Ok_inv in H as (r & Hr & H).
  apply bind_Ok_inv in H as (rs' & Hrs & [= <-]).
  constructor; [|by apply IH].
  unfold stored_room in Hr. apply bind_Ok_inv in Hr as (row & Hrow & Hr).
  apply bind_Ok_inv in Hr as (msgs & Hmsgs & [= <-]).
  destruct i as [k|]; simpl in Hrow; [|done].
  destruct (rooms st !! k) as [row'|] eqn:Hk; simpl in Hrow; [|done].
  injection Hrow as ->. by exists k, row.
Qed.

Lemma ensure_rooms_entries rs : ∀ st st2 rs1,
  ensure_rooms st rs = Ok (st2, rs1) →
  Forall2 (λ room r, ∃ row, rooms st2 !! re_id room = Some row
                            ∧ re_id r = re_id room
                            ∧ history st2 (Room.id row) = Ok (re_messages r)) rs rs1.
Proof.
  induction rs as [|room rs IH]; intros st st2 rs1; simpl.
  { intros [= <- <-]. constructor. }
  intros H. apply bind_Ok_inv in H as ([st1 room1] & H1 & H).
  apply bind_Ok_inv in H as ([st2' rs1'] & H2 & [= <- <-]).
  apply ensure_room_inv in H1
    as (Hu1 & Hm1 & _ & Hid1 & _ & _ & _ & _ & row & Hrow & Hhist).
  pose proof (ensure_rooms_inv _ _ _ _ H2) as (Hu2 & Hm2 & _ & _ & _ & _ & Hmono & _).
  constructor; [|by eapply IH].
  exists row. split_and!; [by apply Hmono|done|].
  rewrite <- Hhist. apply history_frame; congruence.
Qed.

(** X6: a 200 answer always lists four rooms, and they are the rooms
    that the caller's row holds afterwards, slot by slot, with the
    row's [rooms_expiry] as the answer's expiry; each listed room carries
    the history of the room of that identifier. *)
Theorem listing_answers_with_the_stored_rooms
    st authorization clk prov rs expiry st'
    (Hukey : users_keyed st)
    (Hrkey : rooms_keyed st)
    (Hcall : get_rooms st authorization clk prov = (Json rs expiry, st')) :
  length rs = 4%nat
  ∧ (∃ tok u' e,
       (authorization ≫= λ t, tokens st' !! t) = Some tok
       ∧ users st' !! Token.user_id tok = Some u'
       ∧ User.assigned u' = Some <$> (re_id <$> rs)
       ∧ User.rooms_expiry u' = Some e
       ∧ expiry = timestamp e)
  ∧ Forall (λ r, is_Some (rooms st' !! re_id r)
                 ∧ history st' (re_id r) = Ok (re_messages r)) rs.
Proof.
  pose proof (get_rooms_cases st authorization clk prov) as Hcase.
  rewrite Hcall in Hcase. simpl in Hcase.
  inversion Hcase as [| |tok u rs0 e Htok _ Hu _ He Hrs
                      | |tok u a0 a1 g0 g1 rs0 st0 Htok _ Hu _ Hloop]; subst.
  - apply stored_rooms_inv in Hrs.
    assert (Forall2 (λ i r, i = Some (re_id r) ∧ is_Some (rooms st' !! re_id r)
                            ∧ history st' (re_id r) = Ok (re_messages r))
              (User.assigned u) rs) as Hall.
    { eapply Forall2_impl; [exact Hrs|]. simpl.
      intros i r (k & row & -> & Hrow & Hid & _ & _ & Hh).
      pose proof (map_Forall_lookup_1 _ _ _ _ Hrkey Hrow) as Hk. simpl in Hk.
      rewrite Hid, Hk. rewrite Hk in Hh. by eauto. }
    split_and!.
    + by rewrite <- (Forall2_length _ _ _ Hall).
    + exists tok, u, e. split_and!; try done.
      apply list_eq_Forall2. rewrite <- list_fmap_compose.
      apply Forall2_fmap_r. eapply Forall2_impl; [exact Hall|]. by intros i r (-> & _).
    + eapply Forall2_Forall_r; [exact Hall|]. apply Forall_true.
      intros i r (_ & ? & ?). done.
  - pose proof (ensure_rooms_entries _ _ _ _ Hloop) as Hent.
    pose proof (ensure_rooms_inv _ _ _ _ Hloop)
      as (Hus & _ & Hts & Hids & _ & _ & _ & Hkeyed & _).
    pose proof (map_Forall_lookup_1 _ _ _ _ Hukey Hu) as Hk. simpl in Hk.
    destruct (refresh_access_rooms prov clk u) as (Hid & _).
    split_and!.
    + rewrite <- (Forall2_length _ _ _ Hent). done.
    + exists tok, (User.set_rooms (artist_id a0) (artist_id a1) g0 g1
                     (next_midnight clk) (refresh_access prov clk u)), (next_midnight clk).
      split_and!; [|rewrite Hus|by rewrite Hids|done..].
      * destruct authorization as [t|]; [|done]. simpl in *. by rewrite Hts.
      * simpl. rewrite <- Hk, <- Hid. apply lookup_insert_eq.
    + eapply Forall2_Forall_r; [exact Hent|]. apply Forall_true.
      intros room r (row & Hrow & Hrid & Hh).
      assert (rooms_keyed st') as Hkey' by (by apply Hkeyed).
      pose proof (map_Forall_lookup_1 _ _ _ _ Hkey' Hrow) as Hrk. simpl in Hrk.
      rewrite Hrid. rewrite Hrk in Hh. by eauto.
Qed.
End listing.

(** ** The rooms a listing creates *)

Section listing_rooms.
Implicit Types (st : Store) (u : User.t) (clk : Clock) (prov : Provider).

Lemma ensure_room_dom st room st1 room1 :
  built room → ensure_room st room = Ok (st1, room1) →
  dom (rooms st1) = dom (rooms st) ∪ {[re_id room]}.
Proof.
  intros [_ Hgenre] H. unfold ensure_room in H.
  apply bind_Ok_inv in H as (st0 & Hst0 & H).
  apply bind_Ok_inv in H as (row & _ & H).
  apply bind_Ok_inv in H as (msgs & _ & [= <- _]).
  destruct (rooms st !! re_id room) as [r|] eqn:Hr.
  { injection Hst0 as <-. apply elem_of_dom_2 in Hr. set_solver. }
  destruct (decide (re_type room = "artist")) as [Hty|Hty].
  - apply bind_Ok_inv in Hst0 as (imgs & _ & [= <-]). simpl.
    rewrite dom_insert_L. set_solver.
  - rewrite (Hgenre Hty), Hr in Hst0. injection Hst0 as <-. simpl.
    rewrite dom_insert_L. set_solver.
Qed.

Lemma ensure_rooms_dom rs : ∀ st st2 rs1,
  Forall built rs → ensure_rooms st rs = Ok (st2, rs1) →
  dom (rooms st2) = dom (rooms st) ∪ list_to_set (re_id <$> rs).
Proof.
  induction rs as [|room rs IH]; intros st st2 rs1 Hb; simpl.
  { intros [= <- <-]. set_solver. }
  apply Forall_cons in Hb as [Hroom Hrs].
  intros H. apply bind_Ok_inv in H as ([st1 room1] & H1 & H).
  apply bind_Ok_inv in H as ([st2' rs1'] & H2 & [= <- <-]).
  rewrite (IH _ _ _ Hrs H2), (ensure_room_dom _ _ _ _ Hroom H1). set_solver.
Qed.

(** X7: the only room rows a listing adds are rows for the rooms it
    lists: after a 200 answer the room table has the identifiers it had
    plus the four listed ones, and after any other answer it is
    unchanged. *)
Theorem listing_creates_only_listed_rooms st authorization clk prov
    (Hrkey : rooms_keyed st) :
  match (get_rooms st authorization clk prov).1 with
  | Json rs _ =>
      dom (rooms (get_rooms st authorization clk prov).2)
      = dom (rooms st) ∪ list_to_set (re_id <$> rs)
  | _ => rooms (get_rooms st authorization clk prov).2 = rooms st
  end.
Proof.
  destruct (get_rooms_cases st authorization clk prov)
    as [|e He|tok u rs e _ _ _ _ _ Hrs|tok u Htok _ Hu _
        |tok u a0 a1 g0 g1 rs st' Htok _ Hu _ Hloop]; try done.
  - apply stored_rooms_inv in Hrs.
    assert (list_to_set (re_id <$> rs) ⊆ dom (rooms st)) as Hsub; [|set_solver].
    assert (Forall (λ r, re_id r ∈ dom (rooms st)) rs) as Hall.
    { eapply Forall2_Forall_r; [exact Hrs|]. apply Forall_true.
      intros a r (k & row & _ & Hrow & Hid & _).
      pose proof (map_Forall_lookup_1 _ _ _ _ Hrkey Hrow) as Hk. simpl in Hk.
      rewrite Hid, Hk. by eapply elem_of_dom_2. }
    intros i Hi. apply elem_of_list_to_set, list_elem_of_fmap in Hi as (r & -> & Hr).
    rewrite Forall_forall in Hall. by apply Hall.
  - pose proof (ensure_rooms_inv _ _ _ _ Hloop) as (_ & _ & _ & Hids & _).
    rewrite Hids.
    by rewrite (ensure_rooms_dom _ _ _ _ (built_rooms_built a0 a1 g0 g1) Hloop).
Qed.
End listing_rooms.

(** ** Integrity of the store under listings *)

Section integrity.
Implicit Types (st : Store) (u : User.t) (clk : Clock) (prov : Provider).

(** Writing a user row over an existing key and adding room rows keeps
    a store consistent, provided the rooms of the new row exist. *)
Lemma consistent_write st st' u' :
  consistent st →
  users st' = <[User.id u' := u']> (users st) →
  tokens st' = tokens st →
  messages st' = messages st →
  (∀ k r, rooms st !! k = Some r → rooms st' !! k = Some r) →
  rooms_keyed st' →
  Forall (λ a, ∀ r, a = Some r → is_Some (rooms st' !! r)) (User.assigned u') →
  (is_Some (User.rooms_expiry u') → Forall is_Some (User.assigned u')) →
  consistent st'.
Proof.
  intros [Hu Hr Ha Ho Has Hc] Hus Hts Hms Hmono Hrkey Hnew Hcomplete.
  split.
  - unfold users_keyed. rewrite Hus. by apply map_Forall_insert_2.
  - done.
  - unfold authors_exist in *. rewrite Hus, Hms.
    eapply Forall_impl; [exact Ha|]. intros m Hm. simpl in Hm.
    apply lookup_insert_is_Some'. by right.
  - rewrite Hus, Hts. eapply map_Forall_impl; [exact Ho|].
    intros k tok Hm. simpl in Hm. apply lookup_insert_is_Some'. by right.
  - rewrite Hus. apply map_Forall_insert_2; [done|].
    eapply map_Forall_impl; [exact Has|]. intros k u Hall. simpl in *.
    eapply Forall_impl; [exact Hall|]. intros a Hex r ->.
    destruct (Hex r eq_refl) as [row Hrow]. exists row. by apply Hmono.
  - rewrite Hus. by apply map_Forall_insert_2.
Qed.

Lemma get_rooms_consistent st authorization clk prov
    (Hst : consistent st) :
  consistent (get_rooms st authorization clk prov).2.
Proof.
  destruct (get_rooms_cases st authorization clk prov)
    as [|e He|tok u rs e _ _ _ _ _ _|tok u Htok _ Hu _
        |tok u a0 a1 g0 g1 rs st' Htok _ Hu _ Hloop]; try done.
  - destruct (refresh_access_rooms prov clk u) as (Hid & Hexp & Has).
    apply (consistent_write st _ (refresh_access prov clk u)); try done.
    + apply Hst.
    + rewrite Has. apply (map_Forall_lookup_1 _ _ _ _ (cons_assigned _ Hst) Hu).
    + rewrite Has, Hexp. apply (map_Forall_lookup_1 _ _ _ _ (cons_complete _ Hst) Hu).
  - pose proof (ensure_rooms_inv _ _ _ _ Hloop)
      as (Hus & Hms & Hts & _ & _ & _ & Hmono & Hkeyed & Hrows).
    apply (consistent_write st st'
             (User.set_rooms (artist_id a0) (artist_id a1) g0 g1
                (next_midnight clk) (refresh_access prov clk u)));
      [exact Hst|exact Hus|exact Hts|exact Hms|exact Hmono| | |].
    + apply Hkeyed, Hst.
    + simpl. cut (Forall (λ i, is_Some (rooms st' !! i))
                    [artist_id a0; artist_id a1; g0; g1]).
      { intros Hall. repeat (apply Forall_cons in Hall as [? Hall]).
        repeat constructor; by intros r [= <-]. }
      apply (Forall_fmap re_id (λ i, is_Some (rooms st' !! i)) (built_rooms a0 a1 g0 g1)).
      eapply Forall_impl; [exact Hrows|]. intros room (row & _ & Hrow & _). by eexists.
    + intros _. simpl. repeat constructor; by eexists.
Qed.




End integrity.

(** ** What a post does to the store *)

Section posting.
Implicit Types (st : Store) (u : User.t) (sess : Session).

(** The two ways [message_created] can end: without a write, or after
    the insert of one row. *)
Lemma message_created_inv st sess room body now :
  (∃ ack, message_created st sess room body now = (ack, st, [])
          ∧ ack ≠ Acked "Message sent" 201)
  ∨ ∃ token_id tok u row,
      token sess = Some token_id ∧ tokens st !! token_id = Some tok
      ∧ users st !! Token.user_id tok = Some u
      ∧ Some room ∈ User.assigned u ∧ rooms st !! room = Some row
      ∧ message_created st sess room body now
        = match marshal (users st) (posted st u row body now) with
          | Ok j => (Acked "Message sent" 201,
                     with_message (posted st u row body now) st,
                     [mkEmit "new message" j room])
          | Raise e => (AckUnhandled e, with_message (posted st u row body now) st, [])
          end.
Proof.
  unfold message_created.
  destruct (token sess) as [token_id|] eqn:Hs; [|left; eexists; split; [reflexivity|discriminate]].
  destruct (tokens st !! token_id) as [tok|] eqn:Htok; [|left; eexists; split; [reflexivity|discriminate]].
  destruct (users st !! Token.user_id tok) as [u|] eqn:Hu; [|left; eexists; split; [reflexivity|discriminate]].
  unfold post_as, not_assigned. case_bool_decide as Hmem; [left; eexists; split; [reflexivity|discriminate]|].
  destruct (rooms st !! room) as [row|] eqn:Hrow; [|left; eexists; split; [reflexivity|discriminate]].
  right. exists token_id, tok, u, row.
  done.
Qed.

(** With the integrity constraints, the marshalling after the insert
    succeeds. *)
Lemma posted_marshals st tok u row body now :
  users_keyed st → users st !! Token.user_id tok = Some u →
  marshal (users st) (posted st u row body now)
  = Ok (mkMessageJson (next_id (messages st)) body (timestamp now) (Room.id row)
          (profile_of u)).
Proof.
  intros Hkey Hu. pose proof (map_Forall_lookup_1 _ _ _ _ Hkey Hu) as Hk. simpl in Hk.
  unfold marshal, posted. cbn [Message.user_id].
  replace (users st !! User.id u) with (Some u) by (by rewrite Hk, Hu). done.
Qed.

Lemma next_id_above (ms : list Message.t) :
  Forall (λ m, Message.id m < next_id ms) ms.
Proof.
  unfold next_id. induction ms as [|m ms IH]; simpl; [constructor|].
  constructor; [lia|]. eapply Forall_impl; [exact IH|]. intros m0 H0. simpl in H0. lia.
Qed.

(** X9: a post never touches users, tokens or rooms, and the log only
    grows at its end: either it is unchanged, or one message was appended
    that carries the given body and clock reading and an identifier above
    every identifier in the log. Something is emitted exactly with the
    201 acknowledgement, and then to the room that was named. *)
Theorem post_appends_at_most_one st sess room body now :
  users (message_created st sess room body now).1.2 = users st
  ∧ tokens (message_created st sess room body now).1.2 = tokens st
  ∧ rooms (message_created st sess room body now).1.2 = rooms st
  ∧ (messages (message_created st sess room body now).1.2 = messages st
     ∨ ∃ m, messages (message_created st sess room body now).1.2 = messages st ++ [m]
            ∧ Message.body m = body ∧ Message.timestamp m = now
            ∧ Forall (λ m0, Message.id m0 < Message.id m) (messages st))
  ∧ ((message_created st sess room body now).1.1 = Acked "Message sent" 201
     ∧ (∃ j, (message_created st sess room body now).2 = [mkEmit "new message" j room])
     ∨ (message_created st sess room body now).1.1 ≠ Acked "Message sent" 201
       ∧ (message_created st sess room body now).2 = []).
Proof.
  destruct (message_created_inv st sess room body now)
    as [(ack & -> & Hack)|(token_id & tok & u & row & _ & _ & _ & _ & _ & ->)].
  { split_and!; try done; [by left|by right]. }
  assert (∃ ack emits,
    match marshal (users st) (posted st u row body now) with
    | Ok j => (Acked "Message sent" 201, with_message (posted st u row body now) st,
               [mkEmit "new message" j room])
    | Raise e => (AckUnhandled e, with_message (posted st u row body now) st, [])
    end = (ack, with_message (posted st u row body now) st, emits)
    ∧ (ack = Acked "Message sent" 201 ∧ (∃ j, emits = [mkEmit "new message" j room])
       ∨ ack ≠ Acked "Message sent" 201 ∧ emits = [])) as (ack & emits & -> & Hend).
  { destruct (marshal (users st) (posted st u row body now)) as [j|e].
    - eexists _, _. split; [done|]. left. by eauto.
    - eexists _, _. split; [done|]. by right. }
  split_and!; try done.
  right. exists (posted st u row body now). split_and!; try done.
  apply next_id_above.
Qed.

Lemma message_created_ids st sess room body now
    (Hids : NoDup (Message.id <$> messages st)) :
  NoDup (Message.id <$> messages (message_created st sess room body now).1.2).
Proof.
  destruct (message_created_inv st sess room body now)
    as [(ack & -> & _)|(token_id & tok & u & row & _ & _ & _ & _ & _ & ->)]; [done|].
  assert (NoDup (Message.id <$> messages (with_message (posted st u row body now) st))).
  { simpl. rewrite fmap_app. apply NoDup_app. split_and!; [done| |apply NoDup_singleton].
    intros i (m0 & -> & Hm0)%list_elem_of_fmap Heq%list_elem_of_singleton.
    pose proof (next_id_above (messages st)) as Hnew.
    rewrite Forall_forall in Hnew. specialize (Hnew m0 Hm0). simpl in *. lia. }
  by destruct (marshal (users st) (posted st u row body now)).
Qed.

(** X10: message identifiers stay distinct. *)
Theorem post_keeps_ids_distinct st sess room body now
    (Hids : NoDup (Message.id <$> messages st)) :
  NoDup (Message.id <$> messages (message_created st sess room body now).1.2).
Proof. by apply message_created_ids. Qed.

(** X11: a post changes the history of no other room. *)
Theorem post_leaves_other_rooms_alone st sess room body now rid
    (Hrkey : rooms_keyed st)
    (Hother : rid ≠ room) :
  history (message_created st sess room body now).1.2 rid = history st rid.
Proof.
  destruct (message_created_inv st sess room body now)
    as [(ack & -> & _)|(token_id & tok & u & row & _ & _ & _ & _ & Hrow & ->)]; [done|].
  pose proof (map_Forall_lookup_1 _ _ _ _ Hrkey Hrow) as Hk. simpl in Hk.
  assert (history (with_message (posted st u row body now) st) rid = history st rid).
  { unfold history, room_messages. simpl.
    rewrite filter_app, filter_cons_False, filter_nil, app_nil_r; [done|].
    simpl. congruence. }
  by destruct (marshal (users st) (posted st u row body now)).
Qed.

Lemma message_created_ack st sess token_id tok room body now
    (Hst : consistent st)
    (Hsess : token sess = Some token_id)
    (Htok : tokens st !! token_id = Some tok) :
  ∃ u, users st !! Token.user_id tok = Some u
       ∧ (message_created st sess room body now).1.1
         = if bool_decide (Some room ∈ User.assigned u)
           then Acked "Message sent" 201
           else Acked "User does not have access to room" 403.
Proof.
  destruct (map_Forall_lookup_1 _ _ _ _ (cons_owners _ Hst) Htok) as [u Hu].
  simpl in Hu. exists u. split; [done|].
  destruct (message_created_inv st sess room body now)
    as [(ack & Hcall & Hack)|(tid' & tok' & u' & row & Hs' & Htok' & Hu' & Hin & _ & Hcall)].
  - rewrite Hcall. simpl.
    unfold message_created in Hcall. rewrite Hsess, Htok, Hu in Hcall.
    unfold post_as, not_assigned in Hcall.
    destruct (decide (Some room ∈ User.assigned u)) as [Hmem|Hmem].
    + rewrite bool_decide_eq_false_2 in Hcall by (intros Hn; by apply Hn).
      pose proof (map_Forall_lookup_1 _ _ _ _ (cons_assigned _ Hst) Hu) as Has.
      simpl in Has. rewrite Forall_forall in Has.
      destruct (Has _ Hmem room eq_refl) as [row Hrow]. rewrite Hrow in Hcall.
      fold (posted st u row body now) in Hcall.
      change (users (with_message (posted st u row body now) st)) with (users st) in Hcall.
      rewrite (posted_marshals st tok) in Hcall by (done || apply Hst). congruence.
    + rewrite bool_decide_eq_true_2 in Hcall by done.
      rewrite bool_decide_eq_false_2 by done. congruence.
  - rewrite Hcall. simplify_eq.
    rewrite (posted_marshals st tok) by (done || apply Hst). simpl.
    by rewrite bool_decide_eq_true_2.
Qed.

(** X12: on a consistent store, a post from a session whose token row
    exists is acknowledged with 201 when the room is one of the owner's
    four assignments and with 403 otherwise; it never raises. *)
Theorem post_outcomes st sess token_id tok room body now
    (Hst : consistent st)
    (Hsess : token sess = Some token_id)
    (Htok : tokens st !! token_id = Some tok) :
  ∃ u, users st !! Token.user_id tok = Some u
       ∧ (message_created st sess room body now).1.1
         = if bool_decide (Some room ∈ User.assigned u)
           then Acked "Message sent" 201
           else Acked "User does not have access to room" 403.
Proof. by eapply message_created_ack. Qed.
End posting.

(** ** Sign-in and user lookup *)

Section sign_in.
Implicit Types (st : Store) (u : User.t) (acc : Accounts).

Lemma post_consistent st sess room body now :
  consistent st → consistent (message_created st sess room body now).1.2.
Proof.
  intros Hst.
  destruct (message_created_inv st sess room body now)
    as [(ack & -> & _)|(token_id & tok & u & row & _ & _ & Hu & _ & _ & ->)]; [done|].
  assert (consistent (with_message (posted st u row body now) st)) as Hnew.
  { destruct Hst as [Hus Hr Ha Ho Has Hc]. split; try done.
    unfold authors_exist in *. simpl. apply Forall_app. split; [done|].
    constructor; [|constructor]. simpl.
    pose proof (map_Forall_lookup_1 _ _ _ _ Hus Hu) as Hk. simpl in Hk.
    rewrite Hk. by eexists. }
  by destruct (marshal (users st) (posted st u row body now)).
Qed.



(** The ways [spotify_callback] can end. *)
Lemma spotify_callback_inv st code acc now_access now_token :
  (spotify_callback st code acc now_access now_token).2 = st
  ∧ (∀ body, (spotify_callback st code acc now_access now_token).1 ≠ Created body)
  ∨ ∃ c token_data,
      code = Some c ∧ code_grant acc c = Some token_data ∧ tokens st !! c = None
      ∧ spotify_callback st code acc now_access now_token
        = (let user_data := me acc (gd_access_token token_data) in
           let user := signed_in_user st token_data user_data now_access in
           (Created (mkLoginJson (User.id user) (pf_display_name user_data)
                       (pf_email user_data) (pf_spotify user_data)
                       (first_image_url user_data)),
            mkStore (<[User.id user := user]> (users st))
              (<[c := Token.mk c (now_token + timedelta_weeks 1) (User.id user)]> (tokens st))
              (rooms st) (messages st))).
Proof.
  unfold spotify_callback.
  destruct code as [c|]; [|by left].
  destruct (code_grant acc c) as [token_data|] eqn:Hgrant; [|by left].
  destruct (tokens st !! c) eqn:Htok; [by left|].
  right. by exists c, token_data.
Qed.

Lemma signed_in_user_spec st token_data user_data now_access :
  users_keyed st →
  let user := signed_in_user st token_data user_data now_access in
  User.id user = pf_id user_data
  ∧ profile_of user = mkUserJson (pf_id user_data) (pf_display_name user_data)
                        (first_image_url user_data) (Some (pf_spotify user_data))
  ∧ User.access_token user = gd_access_token token_data
  ∧ User.refresh_token user = gd_refresh_token token_data
  ∧ User.access_token_expiry user = timedelta_seconds (gd_expires_in token_data) + now_access
  ∧ match users st !! pf_id user_data with
    | Some u => User.assigned user = User.assigned u
                ∧ User.rooms_expiry user = User.rooms_expiry u
    | None => User.assigned user = [None; None; None; None]
              ∧ User.rooms_expiry user = None
    end.
Proof.
  intros Hkey. unfold signed_in_user, profile_of.
  destruct (users st !! pf_id user_data) as [u|] eqn:Hu; simpl; [|done].
  pose proof (map_Forall_lookup_1 _ _ _ _ Hkey Hu) as Hk. simpl in Hk.
  by rewrite Hk.
Qed.

Lemma spotify_callback_frame st code acc now_access now_token :
  rooms (spotify_callback st code acc now_access now_token).2 = rooms st
  ∧ messages (spotify_callback st code acc now_access now_token).2 = messages st
  ∧ (∀ k tok, tokens st !! k = Some tok →
       tokens (spotify_callback st code acc now_access now_token).2 !! k = Some tok)
  ∧ ((spotify_callback st code acc now_access now_token).2 = st
     ∨ ∃ body c, (spotify_callback st code acc now_access now_token).1 = Created body
                 ∧ code = Some c ∧ is_Some (code_grant acc c) ∧ tokens st !! c = None).
Proof.
  destruct (spotify_callback_inv st code acc now_access now_token)
    as [[-> _]|(c & token_data & -> & Hgrant & Hfree & ->)].
  { split_and!; try done. by left. }
  cbv zeta. simpl. split_and!; try done.
  - intros k tok Hk. rewrite lookup_insert_ne; [done|congruence].
  - right. eexists _, c. by rewrite Hgrant.
Qed.


Lemma rooms_of_user_not_abort st user clk prov status :
  (rooms_of_user st user clk prov).1 ≠ Abort status.
Proof.
  unfold rooms_of_user. destruct user as [u|]; [|done].
  destruct (rooms_stale u (now_rooms clk)).
  - cbv zeta. case_bool_decide; [done|]. by destruct (recompute _ _ _ _) as [[[? ?] ?]|].
  - by destruct (stored_rooms st (User.assigned u)), (User.rooms_expiry u).
Qed.

(** X14: the token a sign-in issues is the code itself and is good for one
    week from the clock reading of its creation: with it, the listing
    answers 403 and [join] refuses exactly when the reading of the
    request lies after that week. *)
Theorem issued_token_lasts_one_week
    st c acc now_access now_issue body st'
    (Hcall : spotify_callback st (Some c) acc now_access now_issue = (Created body, st')) :
  (∀ clk prov,
     (get_rooms st' (Some c) clk prov).1 = Abort 403
     ↔ now_issue + timedelta_weeks 1 < now_token clk)
  ∧ (∀ sess now,
       (join st' sess c now).1 = Refused "authentication failed"
       ↔ now_issue + timedelta_weeks 1 < now).
Proof.
  destruct (spotify_callback_inv st (Some c) acc now_access now_issue)
    as [[_ Hno]|(c' & token_data & [= <-] & Hgrant & Hfree & Heq)].
  { rewrite Hcall in Hno. by destruct (Hno body). }
  rewrite Hcall in Heq. cbv zeta in Heq. injection Heq as _ ->.
  set (user := signed_in_user st token_data _ now_access).
  split.
  - intros clk prov. unfold get_rooms. simpl. rewrite lookup_insert_eq. simpl.
    case_bool_decide as Hexp; [done|]. rewrite lookup_insert_eq.
    split; [|done]. intros H. by apply rooms_of_user_not_abort in H.
  - intros sess now. unfold join. simpl. rewrite lookup_insert_eq. simpl.
    case_bool_decide as Hexp; [done|]. by rewrite lookup_insert_eq.
Qed.

(** X15: a sign-in writes the provider's profile and credentials to the
    row of the provider's user identifier and leaves every other user
    row alone. The row of a returning user keeps its four rooms and
    [rooms_expiry]; the row of a new user has none. *)
Theorem sign_in_upserts_the_user
    st c acc now_access now_token token_data
    (Hkey : users_keyed st)
    (Hgrant : code_grant acc c = Some token_data)
    (Hfree : tokens st !! c = None) :
  ∃ user,
    users (spotify_callback st (Some c) acc now_access now_token).2
      !! pf_id (me acc (gd_access_token token_data)) = Some user
    ∧ User.id user = pf_id (me acc (gd_access_token token_data))
    ∧ User.display_name user = pf_display_name (me acc (gd_access_token token_data))
    ∧ User.profile_picture user = first_image_url (me acc (gd_access_token token_data))
    ∧ User.access_token user = gd_access_token token_data
    ∧ User.refresh_token user = gd_refresh_token token_data
    ∧ User.access_token_expiry user
      = timedelta_seconds (gd_expires_in token_data) + now_access
    ∧ match users st !! pf_id (me acc (gd_access_token token_data)) with
      | Some u => User.assigned user = User.assigned u
                  ∧ User.rooms_expiry user = User.rooms_expiry u
      | None => User.assigned user = [None; None; None; None]
                ∧ User.rooms_expiry user = None
      end
    ∧ ∀ k, k ≠ pf_id (me acc (gd_access_token token_data)) →
        users (spotify_callback st (Some c) acc now_access now_token).2 !! k
        = users st !! k.
Proof.
  unfold spotify_callback. rewrite Hgrant, Hfree. cbv zeta. simpl.
  set (user_data := me acc (gd_access_token token_data)).
  destruct (signed_in_user_spec st token_data user_data now_access Hkey)
    as (Hid & Hp & Hat & Hrt & Hexp & Hrooms).
  exists (signed_in_user st token_data user_data now_access).
  injection Hp as _ Hdn Hpp _.
  rewrite Hid. split_and!; try done.
  - apply lookup_insert_eq.
  - intros k Hk. by rewrite lookup_insert_ne.
Qed.

(** X16: messages show their author's current profile: after a 201
    sign-in, every message of the signed-in user marshals with the
    display name, picture and link of that answer. *)
Theorem sign_in_updates_the_author_of_old_messages
    st code acc now_access now_token body st' (m : Message.t)
    (Hkey : users_keyed st)
    (Hcall : spotify_callback st code acc now_access now_token = (Created body, st'))
    (Hauthor : Message.user_id m = lj_id body) :
  marshal (users st') m
  = Ok (mkMessageJson (Message.id m) (Message.body m)
          (timestamp (Message.timestamp m)) (Message.room_id m)
          (mkUserJson (lj_id body) (lj_display_name body)
             (lj_profile_picture body) (Some (lj_spotify_link body)))).
Proof.
  destruct (spotify_callback_inv st code acc now_access now_token)
    as [[_ Hno]|(c & token_data & -> & Hgrant & Hfree & Heq)].
  { rewrite Hcall in Hno. by destruct (Hno body). }
  rewrite Hcall in Heq. cbv zeta in Heq. injection Heq as -> ->.
  simpl in *. unfold marshal. rewrite Hauthor, lookup_insert_eq. simpl.
  destruct (signed_in_user_spec st token_data (me acc (gd_access_token token_data))
              now_access Hkey) as (_ & Hp & _).
  injection Hp as _ -> -> ->. done.
Qed.

(** X17: the identifier a 201 sign-in answers with is one that
    [get_user] finds afterwards. *)
Theorem signed_in_user_is_found
    st code acc now_access now_token body st'
    (Hcall : spotify_callback st code acc now_access now_token = (Created body, st')) :
  get_user st' (lj_id body) = UserFound (lj_id body).
Proof.
  destruct (spotify_callback_inv st code acc now_access now_token)
    as [[_ Hno]|(c & token_data & -> & Hgrant & Hfree & Heq)].
  { rewrite Hcall in Hno. by destruct (Hno body). }
  rewrite Hcall in Heq. cbv zeta in Heq. injection Heq as -> ->.
  unfold get_user. simpl. by rewrite lookup_insert_eq.
Qed.

(** X18: [get_user] answers with the identifier asked for when a user row
    has it, and with 400 when none has. *)
Theorem get_user_finds_the_stored_users st (id : string)
    (Hkey : users_keyed st) :
  get_user st id = if decide (id ∈ dom (users st)) then UserFound id else UserAbort 400.
Proof.
  unfold get_user. destruct (users st !! id) as [u|] eqn:Hu.
  - rewrite decide_True by (by eapply elem_of_dom_2).
    by rewrite (map_Forall_lookup_1 _ _ _ _ Hkey Hu).
  - rewrite decide_False; [done|]. by apply not_elem_of_dom.
Qed.

Lemma callback_consistent st code acc now_access now_token :
  consistent st → consistent (spotify_callback st code acc now_access now_token).2.
Proof.
  intros Hst.
  destruct (spotify_callback_inv st code acc now_access now_token)
    as [[-> _]|(c & token_data & -> & Hgrant & Hfree & ->)]; [done|].
  cbv zeta. simpl.
  set (user_data := me acc (gd_access_token token_data)).
  set (user := signed_in_user st token_data user_data now_access).
  destruct (signed_in_user_spec st token_data user_data now_access (cons_users _ Hst))
    as (Hid & _ & _ & _ & _ & Hrooms). fold user in Hid, Hrooms.
  assert (Forall (λ a, ∀ r, a = Some r → is_Some (rooms st !! r)) (User.assigned user)
          ∧ (is_Some (User.rooms_expiry user) → Forall is_Some (User.assigned user)))
    as [Hnew Hcomplete].
  { destruct (users st !! pf_id user_data) as [u|] eqn:Hu.
    - destruct Hrooms as [-> ->]. split.
      + apply (map_Forall_lookup_1 _ _ _ _ (cons_assigned _ Hst) Hu).
      + apply (map_Forall_lookup_1 _ _ _ _ (cons_complete _ Hst) Hu).
    - destruct Hrooms as [-> ->]. split; [|by intros [? ?]].
      repeat constructor; by intros r [=]. }
  set (st1 := mkStore (<[User.id user := user]> (users st)) (tokens st) (rooms st)
                (messages st)).
  assert (consistent st1) as [Hus Hr Ha Ho Has Hc].
  { apply (consistent_write st st1 user); try done; apply Hst. }
  split; try done.
  simpl. apply map_Forall_insert_2; [|done].
  simpl. rewrite lookup_insert_eq. by eexists.
Qed.



Lemma reachable_distinct st :
  reachable st → consistent st ∧ NoDup (Message.id <$> messages st).
Proof.
  induction 1 as [|st code acc t1 t2 _ [IH1 IH2]|st authorization clk prov _ [IH1 IH2]
                  |st sess room body now _ [IH1 IH2]].
  - split; [|constructor]. split; try done; constructor.
  - split; [by apply callback_consistent|].
    by destruct (spotify_callback_frame st code acc t1 t2) as (_ & -> & _).
  - split; [by apply get_rooms_consistent|].
    by destruct (get_rooms_frame st authorization clk prov (cons_users _ IH1)) as (_ & -> & _).
  - split; [by apply post_consistent|]. by apply message_created_ids.
Qed.
End sign_in.

(** ** All handlers together *)

Section whole.
Implicit Types (st : Store) (u : User.t).

(** X19: each of the three handlers that write (sign-in, listing, post)
    takes a consistent store to a consistent store, whatever the request
    and whatever the provider answers. *)
Theorem handlers_keep_consistency st
    (Hst : consistent st) :
  (∀ code acc now_access now_token,
     consistent (spotify_callback st code acc now_access now_token).2)
  ∧ (∀ authorization clk prov, consistent (get_rooms st authorization clk prov).2)
  ∧ (∀ sess room body now, consistent (message_created st sess room body now).1.2).
Proof.
  split_and!; intros.
  - by apply callback_consistent.
  - by apply get_rooms_consistent.
  - by apply post_consistent.
Qed.

(** X20: every store that the handlers produce from empty tables is
    consistent and has pairwise distinct message identifiers. *)
Theorem reachable_stores_are_consistent st
    (Hst : reachable st) :
  consistent st ∧ NoDup (Message.id <$> messages st).
Proof. by apply reachable_distinct. Qed.

Lemma join_inv st sess token_id now chans sess' :
  join st sess token_id now = (Subscribed chans, sess') →
  ∃ tok u, tokens st !! token_id = Some tok
           ∧ ¬ Token.expiry tok < now
           ∧ users st !! Token.user_id tok = Some u
           ∧ chans = User.assigned u
           ∧ sess' = mkSession (Some token_id).
Proof.
  unfold join, join_as.
  destruct (tokens st !! token_id) as [tok|] eqn:Htok; [|done].
  case_bool_decide as Hexp; [done|].
  destruct (users st !! Token.user_id tok) as [u|] eqn:Hu; [|done].
  intros [= <- <-]. exists tok, u. by split_and!.
Qed.

(** X21: [join] subscribes a connection to the four rooms stored on the
    token owner's row, without recomputing them, and remembers the
    token; on a consistent store the connection can then post to exactly
    the rooms it was subscribed to: 201 for those, 403 for any other. *)
Theorem subscribed_connection_posts_to_its_channels
    st sess token_id now chans sess' room body now'
    (Hst : consistent st)
    (Hjoin : join st sess token_id now = (Subscribed chans, sess')) :
  token sess' = Some token_id
  ∧ (∃ tok u, tokens st !! token_id = Some tok
              ∧ users st !! Token.user_id tok = Some u
              ∧ chans = User.assigned u)
  ∧ (message_created st sess' room body now').1.1
    = if bool_decide (Some room ∈ chans)
      then Acked "Message sent" 201
      else Acked "User does not have access to room" 403.
Proof.
  apply join_inv in Hjoin as (tok & u & Htok & _ & Hu & -> & ->).
  split_and!; [done|by eauto|].
  destruct (message_created_ack st (mkSession (Some token_id)) token_id tok
              room body now' Hst eq_refl Htok) as (u' & Hu' & ->).
  by simplify_eq.
Qed.



(** X23: reading a history fails, with [AttributeError], exactly when
    some message of the room has no user row for its author. *)
Theorem history_fails_without_author st rid :
  history st rid = Raise AttributeError
  ↔ ∃ m, m ∈ messages st ∧ Message.room_id m = rid
         ∧ users st !! Message.user_id m = None.
Proof.
  unfold history, room_messages.
  assert (∀ ms : list Message.t,
    marshal_all (users st) ms = Raise AttributeError
    ↔ ∃ m, m ∈ ms ∧ users st !! Message.user_id m = None) as Hall.
  { induction ms as [|m ms IH]; simpl.
    { split; [done|]. by intros (m & ?%elem_of_nil & _). }
    unfold marshal at 1.
    destruct (users st !! Message.user_id m) as [u|] eqn:Hu; simpl.
    - destruct (marshal_all (users st) ms) as [js|e] eqn:Hms; simpl.
      + split; [done|]. intros (m' & [->|Hm']%elem_of_cons & Hnone); [congruence|].
        destruct IH as [_ IH]. discriminate IH. by exists m'.
      + pose proof (marshal_all_raises _ _ _ Hms) as ->.
        split; [|done]. intros _. destruct IH as [IH _].
        destruct (IH eq_refl) as (m' & Hm' & Hnone). exists m'. split; [by right|done].
    - split; [|done]. intros _. exists m. split; [by left|done]. }
  rewrite Hall. split.
  - intros (m & [Hr Hm]%list_elem_of_filter & Hnone). by exists m.
  - intros (m & Hm & Hr & Hnone). exists m. split; [|done]. by apply list_elem_of_filter.
Qed.
End whole.

(** ** The run from empty tables *)

Section tour.
Import Tour.

Local Ltac evaluate := vm_compute; first [reflexivity | by intros ?].

Lemma tour_s1_reachable : reachable s1.
Proof. apply reach_callback, reach_empty. Qed.

Lemma tour_s2_reachable : reachable s2.
Proof. apply reach_rooms, tour_s1_reachable. Qed.

Lemma tour_s3_reachable : reachable s3.
Proof. apply reach_post, tour_s2_reachable. Qed.

Lemma tour_s1_consistent : consistent s1.
Proof. apply reachable_distinct, tour_s1_reachable. Qed.

Lemma tour_s2_consistent : consistent s2.
Proof. apply reachable_distinct, tour_s2_reachable. Qed.

Lemma tour_s3_consistent : consistent s3.
Proof. apply reachable_distinct, tour_s3_reachable. Qed.

Lemma listing_frame_witness :
  tokens s2 = tokens s1 ∧ messages s2 = messages s1 ∧ dom (users s2) = dom (users s1).
Proof.
  destruct (listing_frame s1 (Some "c1") (Demo.at_ t0) Demo.prov) as (H1 & H2 & _ & H3 & _).
  - apply tour_s1_consistent.
  - split_and!; [exact H1|exact H2|exact H3].
Defined.

Lemma listing_keeps_histories_witness :
  history (get_rooms s3 (Some "c1") (Demo.at_ (Demo.day 12)) Demo.prov).2 "rock"
  = history s3 "rock".
Proof.
  apply (listing_keeps_histories s3 (Some "c1") (Demo.at_ (Demo.day 12)) Demo.prov "rock").
  apply tour_s3_consistent.
Defined.

Lemma cached_listing_reads_only_witness :
  (get_rooms s2 (Some "c1") (Demo.at_ t0) Demo.prov).2 = s2
  ∧ get_rooms s2 (Some "c1") (Demo.at_ t0) Demo.prov_one
    = get_rooms s2 (Some "c1") (Demo.at_ t0) Demo.prov.
Proof.
  apply (cached_listing_reads_only s2 "c1" c1 bob (Demo.at_ t0) Demo.prov Demo.prov_one).
  - evaluate.
  - evaluate.
  - evaluate.
  - evaluate.
Defined.

Lemma listing_answers_with_the_stored_rooms_witness :
  length listed = 4%nat
  ∧ Forall (λ r, is_Some (rooms s2 !! re_id r)
                 ∧ history s2 (re_id r) = Ok (re_messages r)) listed.
Proof.
  destruct (listing_answers_with_the_stored_rooms s1 (Some "c1") (Demo.at_ t0) Demo.prov
              listed (timestamp (Demo.day 11)) s2) as (H1 & _ & H3).
  - apply tour_s1_consistent.
  - apply tour_s1_consistent.
  - evaluate.
  - split; [exact H1|exact H3].
Defined.

Lemma listing_creates_only_listed_rooms_witness :
  match (get_rooms s1 (Some "c1") (Demo.at_ t0) Demo.prov).1 with
  | Json rs _ =>
      dom (rooms (get_rooms s1 (Some "c1") (Demo.at_ t0) Demo.prov).2)
      = dom (rooms s1) ∪ list_to_set (re_id <$> rs)
  | _ => rooms (get_rooms s1 (Some "c1") (Demo.at_ t0) Demo.prov).2 = rooms s1
  end.
Proof.
  apply (listing_creates_only_listed_rooms s1 (Some "c1") (Demo.at_ t0) Demo.prov).
  apply tour_s1_consistent.
Defined.

Lemma handlers_keep_consistency_witness : consistent s3.
Proof.
  destruct (handlers_keep_consistency s2) as (_ & _ & H).
  - apply tour_s2_consistent.
  - apply (H joined.2 "rock" "hello" t0).
Defined.


Lemma post_keeps_ids_distinct_witness :
  NoDup (Message.id <$> messages (message_created s3 joined.2 "rock" "again" t0).1.2).
Proof.
  apply (post_keeps_ids_distinct s3 joined.2 "rock" "again" t0).
  apply reachable_distinct, tour_s3_reachable.
Defined.

Lemma post_leaves_other_rooms_alone_witness :
  history (message_created s3 joined.2 "rock" "again" t0).1.2 "pop" = history s3 "pop".
Proof.
  apply (post_leaves_other_rooms_alone s3 joined.2 "rock" "again" t0 "pop").
  - apply tour_s3_consistent.
  - discriminate.
Defined.

Lemma post_outcomes_witness :
  ∃ u, users s2 !! "bob" = Some u
       ∧ (message_created s2 joined.2 "jazz" "hello" t0).1.1
         = if bool_decide (Some "jazz" ∈ User.assigned u)
           then Acked "Message sent" 201
           else Acked "User does not have access to room" 403.
Proof.
  apply (post_outcomes s2 joined.2 "c1" c1 "jazz" "hello" t0).
  - apply tour_s2_consistent.
  - evaluate.
  - evaluate.
Defined.

Lemma subscribed_connection_posts_to_its_channels_witness :
  token (mkSession (Some "c1")) = Some "c1"
  ∧ (∃ tok u, tokens s2 !! "c1" = Some tok
              ∧ users s2 !! Token.user_id tok = Some u
              ∧ [Some "a1"; Some "a2"; Some "rock"; Some "pop"] = User.assigned u)
  ∧ (message_created s2 (mkSession (Some "c1")) "pop" "hi" t0).1.1
    = if bool_decide (Some "pop" ∈ [Some "a1"; Some "a2"; Some "rock"; Some "pop"])
      then Acked "Message sent" 201
      else Acked "User does not have access to room" 403.
Proof.
  apply (subscribed_connection_posts_to_its_channels s2 (mkSession None) "c1" t0
           [Some "a1"; Some "a2"; Some "rock"; Some "pop"] (mkSession (Some "c1"))
           "pop" "hi" t0).
  - apply tour_s2_consistent.
  - evaluate.
Defined.

Lemma issued_token_lasts_one_week_witness :
  (∀ clk prov,
     (get_rooms s1 (Some "c1") clk prov).1 = Abort 403
     ↔ t0 + timedelta_weeks 1 < now_token clk)
  ∧ (∀ sess now,
       (join s1 sess "c1" now).1 = Refused "authentication failed"
       ↔ t0 + timedelta_weeks 1 < now).
Proof.
  apply (issued_token_lasts_one_week empty "c1" acc t0 t0 welcome s1).
  evaluate.
Defined.

Lemma sign_in_upserts_the_user_witness :
  ∃ user, users s4 !! "bob" = Some user
          ∧ User.access_token user = "access-c"
          ∧ User.assigned user = User.assigned bob
          ∧ User.rooms_expiry user = User.rooms_expiry bob.
Proof.
  destruct (sign_in_upserts_the_user s3 "c2" acc t0 t0
              (mkGrantData "access-c" "refresh-c" 3600))
    as (user & Hu & _ & _ & _ & Hat & _ & _ & Hrooms & _).
  - apply tour_s3_consistent.
  - evaluate.
  - evaluate.
  - exists user. split_and!; [exact Hu|exact Hat|apply Hrooms|apply Hrooms].
Defined.

Lemma sign_in_updates_the_author_of_old_messages_witness :
  marshal (users s4) hello
  = Ok (mkMessageJson 1 "hello" (timestamp t0) "rock"
          (mkUserJson "bob" (Some "Bob") (Some "https://i/bob")
             (Some "https://open.spotify.com/user/bob"))).
Proof.
  apply (sign_in_updates_the_author_of_old_messages s3 (Some "c2") acc t0 t0 welcome s4 hello).
  - apply tour_s3_consistent.
  - evaluate.
  - reflexivity.
Defined.

Lemma signed_in_user_is_found_witness : get_user s1 "bob" = UserFound "bob".
Proof.
  apply (signed_in_user_is_found empty (Some "c1") acc t0 t0 welcome s1).
  evaluate.
Defined.

Lemma get_user_finds_the_stored_users_witness :
  get_user s1 "eve" = if decide ("eve" ∈ dom (users s1)) then UserFound "eve" else UserAbort 400.
Proof.
  apply (get_user_finds_the_stored_users s1 "eve").
  apply tour_s1_consistent.
Defined.

Lemma reachable_stores_are_consistent_witness :
  consistent s3 ∧ NoDup (Message.id <$> messages s3).
Proof.
  apply (reachable_stores_are_consistent s3).
  apply reach_post, reach_rooms, reach_callback, reach_empty.
Defined.

End tour.
